(** * A shallow embedding of golem-resource-storage

    The sharded storage ([storage/generic], [storage/view/uniform],
    [storage/shard], [storage/iter]), the chunk map ([storage/map/chunk]),
    the storage map ([storage/map]) and the Merkle tree ([merkle-tree]).

    Conventions.
    - A [usize] is an [N] below [2 ^ usize_bits]; the arithmetic of the
      code that the claims exercise is written out with Rust's two
      overflow behaviours: [Checked] (debug builds, overflow panics) and
      [Wrapping] (release builds, overflow wraps around).
    - A panic is [None]; a [Result<T, E>] is [result T E].
    - Bytes are [list byte]; a resource handle is a cursor over its bytes. *)

From Stdlib Require Import String Strings.Byte List NArith ZArith Lia Bool.
Import ListNotations.
Open Scope N_scope.

(** ** Results, panics and usize arithmetic *)

Inductive result (A E : Type) : Type :=
| Ok (a : A)
| Err (e : E).
Arguments Ok {A E} a.
Arguments Err {A E} e.

(** [let? x := e in k]: run [e], propagate a panic. *)
Notation "'let?' x ':=' e 'in' k" :=
  (match e with Some x => k | None => None end)
  (at level 200, x name, e at level 100, k at level 200).

(** [try? x := e in k]: run [e], propagate a panic or an error (Rust's [?]). *)
Notation "'try?' x ':=' e 'in' k" :=
  (match e with
   | Some (Ok x) => k
   | Some (Err er) => Some (Err er)
   | None => None
   end)
  (at level 200, x name, e at level 100, k at level 200).

Inductive mode := Checked | Wrapping.

Section Usize.
Variable m : mode.
Variable usize_bits : N.

Definition usize_modulus : N := 2 ^ usize_bits.

Definition overflow (v : N) : option N :=
  if v <? usize_modulus then Some v
  else match m with
       | Checked => None
       | Wrapping => Some (v mod usize_modulus)
       end.

Definition uadd (a b : N) : option N := overflow (a + b).
Definition umul (a b : N) : option N := overflow (a * b).
Definition usub (a b : N) : option N :=
  if b <=? a then Some (a - b)
  else match m with
       | Checked => None
       | Wrapping => Some (usize_modulus + a - b)
       end.

(** ** Shards and the uniform view ([storage/shard.rs], [storage/view/uniform.rs]) *)

Record Shard := { shard_start : N; shard_end : N }.

Definition shard_size (s : Shard) : N :=
  if shard_end s <? shard_start s then 0 else shard_end s - shard_start s.

(** A resource pointer of the view is the position of the resource in the
    storage's [IndexMap] (the [Rc] clone names the same resource). *)
Record UniformView := {
  uv_start : N;
  uv_end : N;
  uv_offset : N;
  uv_consumed : N;
  uv_view : list (nat * Shard)
}.

Definition uv_new (start end_ : N) : UniformView :=
  {| uv_start := start; uv_end := end_; uv_offset := 0; uv_consumed := 0;
     uv_view := [] |}.

Definition uv_size (v : UniformView) : option N := usub (uv_end v) (uv_start v).

(** [UniformView::add]: the pointer [ptr] of size [size]. *)
Definition uv_add (v : UniformView) (ptr : nat) (size : N) : option (bool * UniformView) :=
  let offset := uv_offset v in
  let? off' := uadd (uv_offset v) size in
  let v := {| uv_start := uv_start v; uv_end := uv_end v; uv_offset := off';
              uv_consumed := uv_consumed v; uv_view := uv_view v |} in
  if uv_end v <=? offset then Some (false, v)
  else if (size =? 0) || (off' <? uv_start v) then Some (true, v)
  else
    let? a := uadd (uv_start v) (uv_consumed v) in
    let? start := usub a offset in
    let? sz := uv_size v in
    let? rem := usub sz (uv_consumed v) in
    let? consumed := usub (N.min size rem) start in
    let? e := uadd start consumed in
    let? c' := uadd (uv_consumed v) consumed in
    let v' := {| uv_start := uv_start v; uv_end := uv_end v; uv_offset := off';
                 uv_consumed := c';
                 uv_view := uv_view v ++ [(ptr, {| shard_start := start; shard_end := e |})] |} in
    let? sz' := uv_size v' in
    Some (negb (c' =? sz'), v').

(** [resources.values().all(|r| builder.add(r))]: stops at the first [false]. *)
Fixpoint uv_add_all (v : UniformView) (ptr : nat) (sizes : list N) : option UniformView :=
  match sizes with
  | [] => Some v
  | s :: rest =>
      let? r := uv_add v ptr s in
      let '(go, v') := r in
      if go then uv_add_all v' (S ptr) rest else Some v'
  end.

Inductive StorageErrorKind :=
| SizeMismatch (actual declared : N)
| InvalidOffset (o : N)
| ViewBuildError (start end_ offset : N)
| IoError (s : string).

Definition uv_build (v : UniformView) : option (result (list (nat * Shard)) StorageErrorKind) :=
  let? sz := uv_size v in
  if negb (uv_consumed v =? sz)
  then Some (Err (ViewBuildError (uv_start v) (uv_end v) (uv_offset v)))
  else Some (Ok (uv_view v)).

(** ** Resources and the generic storage ([storage/generic/mod.rs]) *)

(** A resource: its location, its fixed [size] and the bytes behind its
    handle (a cursor, as [TestHandle]; a [File] behaves the same way for
    the positioned reads and writes below). *)
Record Resource := { location : string; res_size : N; contents : list byte }.

Record GenericStorage := {
  st_name : string;
  resources : list (string * Resource);   (* the IndexMap, in order *)
  total_size : N
}.

Definition res_sizes (st : GenericStorage) : list N :=
  map (fun kr => res_size (snd kr)) (resources st).

(** [Sharded::view]. *)
Definition view (st : GenericStorage) (start_idx size : N)
  : option (result (list (nat * Shard)) StorageErrorKind) :=
  let? e := uadd start_idx size in
  let? b := uv_add_all (uv_new start_idx e) 0 (res_sizes st) in
  uv_build b.

(** Cursor read at [pos] into a buffer of length [n]: the bytes copied. *)
Definition cursor_read (data : list byte) (pos n : N) : list byte :=
  firstn (N.to_nat n) (skipn (N.to_nat pos) data).

(** Cursor write of [src] at [pos]: a gap past the end is zero-filled. *)
Definition cursor_write (data : list byte) (pos : N) (src : list byte) : list byte :=
  let p := N.to_nat pos in
  let data := data ++ repeat x00 (p - length data) in
  firstn p data ++ src ++ skipn (p + length src) data.

(** Replace [buf[start..start + length src]] by [src]. *)
Definition splice (buf : list byte) (start : N) (src : list byte) : list byte :=
  firstn (N.to_nat start) buf ++ src ++ skipn (N.to_nat start + length src) buf.

Definition lookup_res (st : GenericStorage) (i : nat) : option Resource :=
  option_map snd (nth_error (resources st) i).

(** The loop of [GenericStorage::read]: [start] is the cursor in [into]. *)
Fixpoint read_shards (st : GenericStorage) (vw : list (nat * Shard)) (start : N)
    (into : list byte) : option (N * list byte) :=
  match vw with
  | [] => Some (start, into)
  | (i, sh) :: rest =>
      let? r := lookup_res st i in
      let? end_ := uadd start (shard_size sh) in
      (* &mut into[start..end] *)
      if N.of_nat (length into) <? end_ then None else
      (* read_shard: seek to shard.start, then one read of the slice *)
      let got := cursor_read (contents r) (shard_start sh) (end_ - start) in
      let? start' := uadd start (N.of_nat (length got)) in
      read_shards st rest start' (splice into start got)
  end.

Definition read (st : GenericStorage) (offset : N) (into : list byte)
  : option (result (N * list byte) StorageErrorKind) :=
  try? vw := view st offset (N.of_nat (length into)) in
  let? r := read_shards st vw 0 into in
  Some (Ok r).

Definition update_res (st : GenericStorage) (i : nat) (r : Resource) : GenericStorage :=
  {| st_name := st_name st;
     resources := map (fun '(j, kr) => if Nat.eqb i j then (fst kr, r) else kr)
                      (combine (seq 0 (length (resources st))) (resources st));
     total_size := total_size st |}.

(** The loop of [GenericStorage::write]. *)
Fixpoint write_shards (st : GenericStorage) (vw : list (nat * Shard)) (start : N)
    (from : list byte) : option (N * GenericStorage) :=
  match vw with
  | [] => Some (start, st)
  | (i, sh) :: rest =>
      let? r := lookup_res st i in
      let? end_ := uadd start (shard_size sh) in
      if N.of_nat (length from) <? end_ then None else
      let slice := firstn (N.to_nat (end_ - start)) (skipn (N.to_nat start) from) in
      let r' := {| location := location r; res_size := res_size r;
                   contents := cursor_write (contents r) (shard_start sh) slice |} in
      let? start' := uadd start (N.of_nat (length slice)) in
      write_shards (update_res st i r') rest start' from
  end.

Definition write (st : GenericStorage) (offset : N) (from : list byte)
  : option (result N StorageErrorKind) * GenericStorage :=
  match view st offset (N.of_nat (length from)) with
  | None => (None, st)
  | Some (Err e) => (Some (Err e), st)
  | Some (Ok vw) =>
      match write_shards st vw 0 from with
      | None => (None, st)
      | Some (n, st') => (Some (Ok n), st')
      end
  end.

(** ** The storage iterator ([storage/iter.rs]) *)

Record StorageIterator := { it_size : N; it_offset : N; it_buf : list byte }.

Definition iter (size : N) : StorageIterator :=
  {| it_size := size; it_offset := 0; it_buf := repeat x00 (N.to_nat size) |}.

Definition advance (st : GenericStorage) (it : StorageIterator) : option StorageIterator :=
  match read st (it_offset it) (it_buf it) with
  | Some (Ok (n, buf)) =>
      let? off := uadd (it_offset it) n in
      let buf := if negb (n =? it_size it) then firstn (N.to_nat n) buf else buf in
      Some {| it_size := it_size it; it_offset := off; it_buf := buf |}
  | Some (Err _) =>
      Some {| it_size := it_size it; it_offset := total_size st; it_buf := it_buf it |}
  | None => None
  end.

Definition get (it : StorageIterator) : option (list byte) :=
  if it_size it <=? it_offset it then None else Some (it_buf it).

(** [StreamingIterator::next]: [advance] then [get]. *)
Definition next (st : GenericStorage) (it : StorageIterator)
  : option (option (list byte) * StorageIterator) :=
  let? it' := advance st it in
  Some (get it', it').

(** [while let Some(data) = iter.next() { .. }] run for at most [fuel] calls:
    the items seen and whether [next] returned [None]. *)
Fixpoint drain (st : GenericStorage) (fuel : nat) (it : StorageIterator)
  : option (list (list byte) * bool) :=
  match fuel with
  | O => Some ([], false)
  | S f =>
      let? r := next st it in
      let '(item, it') := r in
      match item with
      | None => Some ([], true)
      | Some b =>
          let? r' := drain st f it' in
          let '(rest, ended) := r' in
          Some (b :: rest, ended)
      end
  end.

(** ** [Storage::new] over a file system ([GenericStorage::new], [add]) *)

(** The file system behind [FileResource], the resource of the production
    storage ([StorageV1 = GenericStorage<FileResource>]): each file has its
    bytes and the space allocated to it, and the file system allocates
    whole blocks of [fs_block] bytes.  [FileResource::open] and [create]
    report [allocated_size()] (fs2: the allocated blocks times their size),
    not the length of the file.  [create] opens the file with [create(true)]
    (an empty file) and calls [allocate(size)], [posix_fallocate(fd, 0, size)]
    on Linux: the file grows to [size] zero bytes held in [ceil(size / block)]
    blocks, and a size of 0 is refused ([EINVAL]) once the empty file exists.
    The parent directories are assumed creatable. *)
Record File := { f_data : list byte; f_allocated : N }.

Record Fs := { fs_block : N; fs_files : list (string * File) }.

Definition empty_fs (block : N) : Fs := {| fs_block := block; fs_files := [] |}.

(** The space a file system of [block]-byte blocks allocates for [len] bytes. *)
Definition allocated_size (block len : N) : N := (len + block - 1) / block * block.

Fixpoint fs_lookup (files : list (string * File)) (l : string) : option File :=
  match files with
  | [] => None
  | (l', f) :: rest => if String.eqb l l' then Some f else fs_lookup rest l
  end.

Definition res_exists (fs : Fs) (l : string) : bool :=
  match fs_lookup (fs_files fs) l with Some _ => true | None => false end.

Definition res_open (fs : Fs) (l : string) : result Resource StorageErrorKind :=
  match fs_lookup (fs_files fs) l with
  | Some f => Ok {| location := l; res_size := f_allocated f; contents := f_data f |}
  | None => Err (IoError "NotFound")
  end.

Definition res_create (fs : Fs) (l : string) (size : N) : result Resource StorageErrorKind * Fs :=
  if size =? 0 then
    (Err (IoError "InvalidInput"),
     {| fs_block := fs_block fs; fs_files := (l, {| f_data := []; f_allocated := 0 |}) :: fs_files fs |})
  else
    let f := {| f_data := repeat x00 (N.to_nat size); f_allocated := allocated_size (fs_block fs) size |} in
    (Ok {| location := l; res_size := f_allocated f; contents := f_data f |},
     {| fs_block := fs_block fs; fs_files := (l, f) :: fs_files fs |}).

(** [IndexMap::insert]: an existing key keeps its place and gets the new value. *)
Fixpoint im_insert (l : list (string * Resource)) (k : string) (v : Resource)
  : list (string * Resource) :=
  match l with
  | [] => [(k, v)]
  | (k', v') :: rest =>
      if String.eqb k k' then (k', v) :: rest else (k', v') :: im_insert rest k v
  end.

(** [GenericStorage::add]. *)
Definition storage_add (st : GenericStorage) (fs : Fs) (loc : string) (size : N)
  : result (GenericStorage * Fs) StorageErrorKind :=
  let '(r, fs') :=
    if res_exists fs loc then (res_open fs loc, fs) else res_create fs loc size in
  match r with
  | Err e => Err e
  | Ok resource =>
      if negb (res_size resource =? size)
      then Err (SizeMismatch (res_size resource) size)
      else Ok ({| st_name := st_name st;
                  resources := im_insert (resources st) loc resource;
                  total_size := total_size st |}, fs')
  end.

(** The [try_for_each] of [GenericStorage::new]: [total_size += size] comes
    before [add]. *)
Fixpoint storage_new_loop (st : GenericStorage) (fs : Fs) (items : list (string * N))
  : option (result (GenericStorage * Fs) StorageErrorKind) :=
  match items with
  | [] => Some (Ok (st, fs))
  | (loc, size) :: rest =>
      let? t := uadd (total_size st) size in
      let st := {| st_name := st_name st; resources := resources st; total_size := t |} in
      match storage_add st fs loc size with
      | Err e => Some (Err e)
      | Ok (st', fs') => storage_new_loop st' fs' rest
      end
  end.

Definition storage_new (name : string) (items : list (string * N)) (fs : Fs)
  : option (result (GenericStorage * Fs) StorageErrorKind) :=
  storage_new_loop {| st_name := name; resources := []; total_size := 0 |} fs items.

(** The entry [GenericStorage::new] adds for one [(location, size)] item:
    a resource of [size] zero bytes. *)
Definition zero_resource (item : string * N) : string * Resource :=
  let '(l, s) := item in (l, {| location := l; res_size := s; contents := repeat x00 (N.to_nat s) |}).

(** ** The chunk map ([storage/map/chunk.rs]) *)

Record ChunkMap := {
  cm_bitmap : list bool;
  chunk_size : N;
  chunk_count : N;
  piece_size : N;
  piece_count : N;
  chunks_in_piece : N
}.

Definition MIN_PIECE_SIZE : N := 16384.
Definition MAX_PIECE_SIZE : N := N.shiftl 1 10.

Definition div_upper (value by_ : N) : option N :=
  let? a := uadd value by_ in
  let? b := usub a 1 in
  if by_ =? 0 then None else Some (b / by_).

(** [usize::leading_zeros]. *)
Definition leading_zeros (x : N) : N := usize_bits - N.size x.

Definition piece_size_of (total_size : N) : option N :=
  let? value :=
    if 0 <? total_size then
      let bits := usize_bits in
      let zeros := leading_zeros total_size in
      let? k := usub bits zeros in
      let? k := usub k 1 in
      Some (N.shiftl 1 k)
    else Some 0 in
  Some (N.max (N.min value MAX_PIECE_SIZE) MIN_PIECE_SIZE).

Definition chunk_size_of (piece_size : N) : N := N.shiftr piece_size 2.

Definition chunkmap_new (total_size : N) (all_set : bool) : option ChunkMap :=
  let? piece_size := piece_size_of total_size in
  let chunk_size := chunk_size_of piece_size in
  let? piece_count := div_upper total_size piece_size in
  let? chunks_in_piece := div_upper piece_size chunk_size in
  let? chunk_count := umul piece_count chunks_in_piece in
  Some {| cm_bitmap := repeat all_set (N.to_nat chunk_count);
          chunk_size := chunk_size; chunk_count := chunk_count;
          piece_size := piece_size; piece_count := piece_count;
          chunks_in_piece := chunks_in_piece |}.

End Usize.

(** ** The Merkle tree ([merkle-tree/src]) *)

(** The [Digest] trait: a digest object fed with [input] and finished with
    [result] (which resets it) computes [digest] of the concatenated input. *)
Class Digest (D : Type) := {
  output_size : N;
  digest : list byte -> list byte
}.

Fixpoint list_eqb {A} (eqA : A -> A -> bool) (l1 l2 : list A) : bool :=
  match l1, l2 with
  | [], [] => true
  | x :: r1, y :: r2 => eqA x y && list_eqb eqA r1 r2
  | _, _ => false
  end.

Definition bytes_eqb : list byte -> list byte -> bool := list_eqb Byte.eqb.

Definition entry_eqb (a b : option (list byte)) : bool :=
  match a, b with
  | Some x, Some y => bytes_eqb x y
  | None, None => true
  | _, _ => false
  end.

(** [BitVec::get] and [BitVec::set] (which panics out of range). *)
Definition bv_get (bv : list bool) (i : N) : option bool := nth_error bv (N.to_nat i).

Definition bv_set (bv : list bool) (i : N) (b : bool) : option (list bool) :=
  let k := N.to_nat i in
  if Nat.ltb k (length bv) then Some (firstn k bv ++ b :: skipn (S k) bv) else None.

(** The chunk bitmap as it is persisted: [BitVecSerde] writes
    [BitVec::to_bytes] and reads back with [BitVec::from_bytes] (the
    bit-vec crate).  [to_bytes] packs eight bits per byte, the first as the
    most significant, the last byte padded with zero bits; [from_bytes]
    turns every byte into eight bits, most significant first.  A byte is
    an [N] below 256. *)
Definition to_bytes_bit (bv : list bool) (byte bit : nat) : N :=
  let offset := (byte * 8 + bit)%nat in
  if Nat.leb (length bv) offset then 0
  else N.shiftl (N.b2n (nth offset bv false)) (N.of_nat (7 - bit)).

Definition bv_to_bytes (bv : list bool) : list N :=
  let nbits := length bv in
  let len := (nbits / 8 + (if Nat.eqb (nbits mod 8) 0 then 0 else 1))%nat in
  map (fun i =>
         N.lor (N.lor (N.lor (N.lor (N.lor (N.lor (N.lor
           (to_bytes_bit bv i 0) (to_bytes_bit bv i 1)) (to_bytes_bit bv i 2))
           (to_bytes_bit bv i 3)) (to_bytes_bit bv i 4)) (to_bytes_bit bv i 5))
           (to_bytes_bit bv i 6)) (to_bytes_bit bv i 7))
      (seq 0 len).

Definition byte_bits (b : N) : list bool :=
  map (fun j => N.testbit b (N.of_nat (7 - j))) (seq 0 8).

Definition bv_from_bytes (bytes : list N) : list bool := flat_map byte_bits bytes.

(** A chunk map written by [Serialize] and read back by [Deserialize]: the
    bitmap goes through the bytes above, the other fields are kept. *)
Definition chunkmap_reload (cm : ChunkMap) : ChunkMap :=
  {| cm_bitmap := bv_from_bytes (bv_to_bytes (cm_bitmap cm)); chunk_size := chunk_size cm;
     chunk_count := chunk_count cm; piece_size := piece_size cm;
     piece_count := piece_count cm; chunks_in_piece := chunks_in_piece cm |}.

(** [Level] and [IndexedLevel] ([level.rs]); indices are far below the
    usize bound, so plain [N] arithmetic. *)
Definition level_down (start end_ : N) : option (N * N) :=
  if end_ <=? start then None
  else Some (end_, end_ + N.shiftr (end_ - start + 1) 1).

Record IndexedLevel := { il_index : N; il_start : N; il_end : N }.

Definition il_new (index start end_ : N) : option IndexedLevel :=
  if (start <=? index) && (index <? end_) && negb (end_ <=? start)
  then Some {| il_index := index; il_start := start; il_end := end_ |}
  else None.

Definition parent (il : IndexedLevel) : N :=
  il_end il + N.shiftr (il_index il - il_start il) 1.

Definition il_down (il : IndexedLevel) : option IndexedLevel :=
  match level_down (il_start il) (il_end il) with
  | Some (s, e) => Some {| il_index := parent il; il_start := s; il_end := e |}
  | None => None
  end.

Definition siblings (il : IndexedLevel) : list (option N) :=
  if N.land (il_index il - il_start il) 1 =? 1
  then [Some (il_index il - 1); Some (il_index il)]
  else [Some (il_index il);
        if il_index il =? il_end il - 1 then None else Some (il_index il + 1)].

Definition sibling (il : IndexedLevel) : option N :=
  if N.land (il_index il - il_start il) 1 =? 1 then Some (il_index il - 1)
  else if il_index il =? il_end il - 1 then None
  else Some (il_index il + 1).

(** [tree_size]: the loop runs at most [leaf_count + 1] times. *)
Fixpoint tree_size_loop (fuel : nat) (leaf_count height sum : N) : N * N :=
  match fuel with
  | O => (sum, height)
  | S f =>
      let height := height + 1 in
      let sum := sum + leaf_count in
      if leaf_count <=? 1 then (sum, height)
      else tree_size_loop f (N.shiftr (leaf_count + 1) 1) height sum
  end.

Definition tree_size (leaf_count : N) : N * N :=
  let '(sum, height) := tree_size_loop (S (N.to_nat leaf_count)) leaf_count 0 0 in
  if height =? 1 then (sum + 1, height + 1) else (sum, height).

Record MerkleTree := {
  mt_bitmap : list bool;
  mt_hashes : list byte;
  mt_height : N;
  mt_leaf_count : N
}.

Record Proof := {
  leaf_index : N;
  leaf_hash : list byte;
  path : list (option (list byte));
  partial : bool
}.

Inductive ProofErrorKind :=
| IndexOutOfRange | InvalidLength | InvalidIndex | InvalidHash | PartialProof.

(** [merkle_tree::error::Error]: a message. *)
Definition TreeError := string.

Section Tree.
Context (D : Type) `{Digest D}.

Definition tree_new (leaf_count : N) : MerkleTree :=
  let '(size, height) := tree_size leaf_count in
  {| mt_bitmap := repeat false (N.to_nat size);
     mt_hashes := repeat x00 (N.to_nat (size * output_size));
     mt_height := height; mt_leaf_count := leaf_count |}.

Definition has (t : MerkleTree) (index : N) : bool :=
  match bv_get (mt_bitmap t) index with Some b => b | None => false end.

Definition built (t : MerkleTree) : bool := forallb (fun b => b) (mt_bitmap t).

(** [&self.hashes[i * n .. i * n + n]] panics past the end. *)
Definition get_hash (t : MerkleTree) (index : N) : option (list byte) :=
  let bi := index * output_size in
  if N.of_nat (length (mt_hashes t)) <? bi + output_size then None
  else Some (firstn (N.to_nat output_size) (skipn (N.to_nat bi) (mt_hashes t))).

(** [set_hash]: [clone_from_slice] panics unless [hash] has [output_size]
    bytes; [bitmap.set] panics out of range. *)
Definition set_hash (t : MerkleTree) (index : N) (hash : list byte) : option MerkleTree :=
  let bi := index * output_size in
  if N.of_nat (length (mt_hashes t)) <? bi + output_size then None
  else if negb (N.of_nat (length hash) =? output_size) then None
  else
    let hs := firstn (N.to_nat bi) (mt_hashes t) ++ hash
              ++ skipn (N.to_nat (bi + output_size)) (mt_hashes t) in
    let? bm := bv_set (mt_bitmap t) index true in
    Some {| mt_bitmap := bm; mt_hashes := hs; mt_height := mt_height t;
            mt_leaf_count := mt_leaf_count t |}.

(** The inner [for sibling in ilevel.siblings()] of [build_down]:
    [Some None] is the early [return], [Some (Some bytes)] the digest input. *)
Fixpoint feed (t : MerkleTree) (sibs : list (option N)) (acc : list byte)
  : option (option (list byte)) :=
  match sibs with
  | [] => Some (Some acc)
  | None :: rest => feed t rest acc
  | Some index :: rest =>
      if negb (has t index) then Some None
      else let? h := get_hash t index in feed t rest (acc ++ h)
  end.

Fixpoint build_down_loop (fuel : nat) (t : MerkleTree) (il : IndexedLevel)
  : option MerkleTree :=
  match fuel with
  | O => Some t
  | S f =>
      let? fed := feed t (siblings il) [] in
      match fed with
      | None => Some t
      | Some input =>
          let? t' := set_hash t (parent il) (digest input) in
          let? il' := il_down il in
          build_down_loop f t' il'
      end
  end.

Definition build_down (t : MerkleTree) (leaf_index : N) : option MerkleTree :=
  let? il := il_new leaf_index 0 (mt_leaf_count t) in
  build_down_loop (N.to_nat (mt_height t - 1)) t il.

(** [MerkleTree::set]. *)
(** [MerkleTree::get]: the hash of a leaf, an error out of range. *)
Definition tree_get (t : MerkleTree) (leaf_index : N) : option (result (list byte) TreeError) :=
  if mt_leaf_count t <=? leaf_index then Some (Err "Leaf index out of range"%string)
  else let? h := get_hash t leaf_index in Some (Ok h).

Definition set (t : MerkleTree) (leaf_index : N) (hash : list byte)
  : option (result MerkleTree TreeError) :=
  if mt_leaf_count t <=? leaf_index then Some (Err "Leaf index out of range"%string)
  else
    let? t1 := set_hash t leaf_index hash in
    let? t2 := build_down t1 leaf_index in
    Some (Ok t2).

(** [MerkleTree::build]: [build_down] from every even leaf. *)
Fixpoint build_from (t : MerkleTree) (leaves : list N) : option MerkleTree :=
  match leaves with
  | [] => Some t
  | i :: rest => let? t' := build_down t i in build_from t' rest
  end.

(** [MerkleTree::from]: the leaf hashes of the streamed blocks, laid out
    first, then every internal node built. *)
Definition tree_from (blocks : list (list byte)) : option MerkleTree :=
  let hashes := flat_map digest blocks in
  let leaf_count := N.of_nat (length hashes) / output_size in
  let '(size, height) := tree_size leaf_count in
  let hashes := firstn (N.to_nat (size * output_size))
                  (hashes ++ repeat x00 (N.to_nat (size * output_size))) in
  let bitmap := repeat true (N.to_nat leaf_count)
                ++ repeat false (N.to_nat (size - leaf_count)) in
  build_from {| mt_bitmap := bitmap; mt_hashes := hashes; mt_height := height;
                mt_leaf_count := leaf_count |}
             (map (fun k => 2 * N.of_nat k) (seq 0 (N.to_nat (N.shiftr (leaf_count + 1) 1)))).

(** The loop of [prove]: [None] from [get_hash] or [down().unwrap()] is a
    panic; an unset existing sibling is the [break]. *)
Fixpoint prove_loop (fuel : nat) (t : MerkleTree) (il : IndexedLevel)
    (acc : list (option (list byte))) : option (list (option (list byte))) :=
  match fuel with
  | O => Some acc
  | S f =>
      match sibling il with
      | Some index =>
          if has t index then
            let? h := get_hash t index in
            let? il' := il_down il in
            prove_loop f t il' (acc ++ [Some h])
          else Some acc
      | None =>
          let? il' := il_down il in
          prove_loop f t il' (acc ++ [None])
      end
  end.

Definition prove (t : MerkleTree) (leaf : N) : option (result Proof ProofErrorKind) :=
  let? il := il_new leaf 0 (mt_leaf_count t) in
  let? p := prove_loop (N.to_nat (mt_height t)) t il [] in
  if Nat.ltb (length p) 2 then Some (Err InvalidLength)
  else
    let? lh := get_hash t leaf in
    Some (Ok {| leaf_index := leaf; leaf_hash := lh; path := p;
                partial := negb (built t) |}).

(** [Proof::validate]. *)
Definition validate (self other : Proof) : result unit ProofErrorKind :=
  if negb (leaf_index self =? leaf_index other) then Err InvalidIndex
  else if negb (partial self) && negb (partial other)
          && negb (Nat.eqb (length (path self)) (length (path other)))
  then Err InvalidLength
  else
    let e := Nat.min (length (path self)) (length (path other)) in
    if negb (list_eqb entry_eqb (firstn e (path self)) (firstn e (path other)))
    then Err InvalidHash
    else if negb (Bool.eqb (partial self) (partial other)) then Err PartialProof
    else Ok tt.

Definition verify (t : MerkleTree) (pr : Proof) : option (result unit ProofErrorKind) :=
  if mt_leaf_count t <=? leaf_index pr then Some (Err IndexOutOfRange)
  else if Nat.ltb (length (path pr)) 2 then Some (Err InvalidLength)
  else
    let? h := get_hash t (leaf_index pr) in
    if negb (bytes_eqb h (leaf_hash pr)) then Some (Err InvalidHash)
    else
      try? p := prove t (leaf_index pr) in
      Some (validate p pr).

End Tree.

(** A level the walk of [prove] can be on, in a tree of [nodes] nodes: a
    single-node level, or one whose remaining levels, as [tree_size] counts
    them, end within the tree. *)
Definition walk_ok (nodes : N) (il : IndexedLevel) : Prop :=
  il_start il <= il_index il < il_end il /\
  (il_end il - il_start il = 1 \/
   exists f h, il_end il - il_start il <= N.of_nat f /\
               fst (tree_size_loop f (il_end il - il_start il) h (il_start il)) <= nodes).

(** ** SHA-512 ([ring::digest::SHA512], the digest of [StorageMap]) *)

Module Sha512.
Open Scope Z_scope.

Definition w64 (x : Z) : Z := x mod 2 ^ 64.
Definition rotr (x : Z) (n : Z) : Z := w64 (Z.lor (Z.shiftr x n) (Z.shiftl x (64 - n))).

(** The fractional parts of the cube roots of the first 80 primes. *)
Definition K : list Z := [
   0x428a2f98d728ae22; 0x7137449123ef65cd; 0xb5c0fbcfec4d3b2f; 0xe9b5dba58189dbbc;
   0x3956c25bf348b538; 0x59f111f1b605d019; 0x923f82a4af194f9b; 0xab1c5ed5da6d8118;
   0xd807aa98a3030242; 0x12835b0145706fbe; 0x243185be4ee4b28c; 0x550c7dc3d5ffb4e2;
   0x72be5d74f27b896f; 0x80deb1fe3b1696b1; 0x9bdc06a725c71235; 0xc19bf174cf692694;
   0xe49b69c19ef14ad2; 0xefbe4786384f25e3; 0x0fc19dc68b8cd5b5; 0x240ca1cc77ac9c65;
   0x2de92c6f592b0275; 0x4a7484aa6ea6e483; 0x5cb0a9dcbd41fbd4; 0x76f988da831153b5;
   0x983e5152ee66dfab; 0xa831c66d2db43210; 0xb00327c898fb213f; 0xbf597fc7beef0ee4;
   0xc6e00bf33da88fc2; 0xd5a79147930aa725; 0x06ca6351e003826f; 0x142929670a0e6e70;
   0x27b70a8546d22ffc; 0x2e1b21385c26c926; 0x4d2c6dfc5ac42aed; 0x53380d139d95b3df;
   0x650a73548baf63de; 0x766a0abb3c77b2a8; 0x81c2c92e47edaee6; 0x92722c851482353b;
   0xa2bfe8a14cf10364; 0xa81a664bbc423001; 0xc24b8b70d0f89791; 0xc76c51a30654be30;
   0xd192e819d6ef5218; 0xd69906245565a910; 0xf40e35855771202a; 0x106aa07032bbd1b8;
   0x19a4c116b8d2d0c8; 0x1e376c085141ab53; 0x2748774cdf8eeb99; 0x34b0bcb5e19b48a8;
   0x391c0cb3c5c95a63; 0x4ed8aa4ae3418acb; 0x5b9cca4f7763e373; 0x682e6ff3d6b2b8a3;
   0x748f82ee5defb2fc; 0x78a5636f43172f60; 0x84c87814a1f0ab72; 0x8cc702081a6439ec;
   0x90befffa23631e28; 0xa4506cebde82bde9; 0xbef9a3f7b2c67915; 0xc67178f2e372532b;
   0xca273eceea26619c; 0xd186b8c721c0c207; 0xeada7dd6cde0eb1e; 0xf57d4f7fee6ed178;
   0x06f067aa72176fba; 0x0a637dc5a2c898a6; 0x113f9804bef90dae; 0x1b710b35131c471b;
   0x28db77f523047d84; 0x32caab7b40c72493; 0x3c9ebe0a15c9bebc; 0x431d67c49c100d4c;
   0x4cc5d4becb3e42b6; 0x597f299cfc657e2a; 0x5fcb6fab3ad6faec; 0x6c44198c4a475817
].

(** The fractional parts of the square roots of the first 8 primes. *)
Definition H0 : list Z := [
   0x6a09e667f3bcc908; 0xbb67ae8584caa73b; 0x3c6ef372fe94f82b; 0xa54ff53a5f1d36f1;
   0x510e527fade682d1; 0x9b05688c2b3e6c1f; 0x1f83d9abfb41bd6b; 0x5be0cd19137e2179
].

Definition big_sigma0 (a : Z) : Z := Z.lxor (Z.lxor (rotr a 28) (rotr a 34)) (rotr a 39).
Definition big_sigma1 (e : Z) : Z := Z.lxor (Z.lxor (rotr e 14) (rotr e 18)) (rotr e 41).
Definition small_sigma0 (x : Z) : Z := Z.lxor (Z.lxor (rotr x 1) (rotr x 8)) (Z.shiftr x 7).
Definition small_sigma1 (x : Z) : Z := Z.lxor (Z.lxor (rotr x 19) (rotr x 61)) (Z.shiftr x 6).
Definition ch (e f g : Z) : Z := Z.lxor (Z.land e f) (Z.land (w64 (Z.lnot e)) g).
Definition maj (a b c : Z) : Z := Z.lxor (Z.lxor (Z.land a b) (Z.land a c)) (Z.land b c).

Definition byte_z (b : byte) : Z := Z.of_N (Byte.to_N b).

Fixpoint be_word (bs : list byte) (acc : Z) : Z :=
  match bs with [] => acc | b :: r => be_word r (acc * 256 + byte_z b) end.

Fixpoint words (n : nat) (bs : list byte) : list Z :=
  match n with
  | O => []
  | S k => be_word (firstn 8 bs) 0 :: words k (skipn 8 bs)
  end.

(** The message schedule: [w] holds [W[t-1] .. W[0]], most recent first. *)
Fixpoint schedule (n : nat) (w : list Z) : list Z :=
  match n with
  | O => w
  | S k =>
      let wt := w64 (small_sigma1 (nth 1 w 0) + nth 6 w 0
                     + small_sigma0 (nth 14 w 0) + nth 15 w 0) in
      schedule k (wt :: w)
  end.

Fixpoint rounds (ks ws : list Z) (st : list Z) : list Z :=
  match ks, ws, st with
  | k :: ks', w :: ws', [a; b; c; d; e; f; g; h] =>
      let t1 := w64 (h + big_sigma1 e + ch e f g + k + w) in
      let t2 := w64 (big_sigma0 a + maj a b c) in
      rounds ks' ws' [w64 (t1 + t2); a; b; c; w64 (d + t1); e; f; g]
  | _, _, _ => st
  end.

Definition compress (hv : list Z) (block : list byte) : list Z :=
  let w := rev (schedule 64 (rev (words 16 block))) in
  map (fun '(x, y) => w64 (x + y)) (combine hv (rounds K w hv)).

Fixpoint blocks (n : nat) (hv : list Z) (msg : list byte) : list Z :=
  match n with
  | O => hv
  | S k => blocks k (compress hv (firstn 128 msg)) (skipn 128 msg)
  end.

Fixpoint be_bytes (n : nat) (x : Z) : list byte :=
  match n with
  | O => []
  | S k => be_bytes k (x / 256) ++ [match Byte.of_N (Z.to_N (x mod 256)) with
                                    | Some b => b | None => x00 end]
  end.

Definition pad (msg : list byte) : list byte :=
  let l := length msg in
  let zeros := ((239 - l mod 128) mod 128)%nat in
  msg ++ [x80] ++ repeat x00 zeros ++ be_bytes 16 (Z.of_nat l * 8).

Definition sha512 (msg : list byte) : list byte :=
  let p := pad msg in
  flat_map (be_bytes 8) (blocks (length p / 128)%nat H0 p).

End Sha512.

(** The digest type of [StorageMap]. *)
Inductive Sha512 := sha512_ctx.

#[export] Instance Sha512_digest : Digest Sha512 :=
  {| output_size := 64; digest := Sha512.sha512 |}.

(** ** The storage map ([storage/map/mod.rs]) *)

Inductive MapErrorKind :=
| ChunkAlreadyExists (c : N)
| ChunkDoesNotExist (c : N)
| ChunkOutOfRange (c : N)
| StorageError (k : StorageErrorKind)
| MerkleTreeError (e : TreeError)
| MerkleTreeProofError (k : ProofErrorKind)
| MapIoError (s : string).

(** [From<storage::Error> for storage::map::Error]. *)
Definition from_storage_error (k : StorageErrorKind) : MapErrorKind :=
  match k with
  | IoError s => MapIoError s
  | k => StorageError k
  end.

Record StorageMap := {
  tree : MerkleTree;
  chunks : ChunkMap;
  storage : GenericStorage
}.

Definition with_storage (sm : StorageMap) (st : GenericStorage) : StorageMap :=
  {| tree := tree sm; chunks := chunks sm; storage := st |}.

Definition with_tree (sm : StorageMap) (t : MerkleTree) : StorageMap :=
  {| tree := t; chunks := chunks sm; storage := storage sm |}.

Definition with_bitmap (sm : StorageMap) (bm : list bool) : StorageMap :=
  let c := chunks sm in
  {| tree := tree sm;
     chunks := {| cm_bitmap := bm; chunk_size := chunk_size c;
                  chunk_count := chunk_count c; piece_size := piece_size c;
                  piece_count := piece_count c; chunks_in_piece := chunks_in_piece c |};
     storage := storage sm |}.

Section Map.
Variable m : mode.
Variable usize_bits : N.

Definition has_chunk (sm : StorageMap) (chunk_num : N) : bool :=
  match bv_get (cm_bitmap (chunks sm)) chunk_num with
  | Some r => r
  | None => false
  end.

Definition has_piece (sm : StorageMap) (piece_num : N) : option bool :=
  let c := chunks sm in
  let? a := umul m usize_bits piece_num (piece_size c) in
  if chunk_size c =? 0 then None else
  let first_chunk := a / chunk_size c in
  let? last := uadd m usize_bits first_chunk (chunks_in_piece c) in
  Some (forallb (has_chunk sm)
                (map N.of_nat (seq (N.to_nat first_chunk) (N.to_nat (last - first_chunk))))).

Definition piece_from_chunk (sm : StorageMap) (chunk_num : N) : option N :=
  let? a := umul m usize_bits chunk_num (chunk_size (chunks sm)) in
  if piece_size (chunks sm) =? 0 then None else Some (a / piece_size (chunks sm)).

Definition read_storage (sm : StorageMap) (offset size : N)
  : option (result (list byte) MapErrorKind) :=
  let buffer := repeat x00 (N.to_nat size) in
  match read m usize_bits (storage sm) offset buffer with
  | None => None
  | Some (Err e) => Some (Err (from_storage_error e))
  | Some (Ok (_, buffer)) => Some (Ok buffer)
  end.

Definition read_chunk (sm : StorageMap) (chunk : N) : option (result (list byte) MapErrorKind) :=
  if negb (has_chunk sm chunk) then Some (Err (ChunkDoesNotExist chunk))
  else
    let? offset := umul m usize_bits chunk (chunk_size (chunks sm)) in
    read_storage sm offset (chunk_size (chunks sm)).

(** [update_tree]: the re-read piece is handed to [MerkleTree::set]. *)
Definition update_tree (sm : StorageMap) (piece_num : N)
  : option (result unit MapErrorKind * StorageMap) :=
  let? offset := umul m usize_bits piece_num (piece_size (chunks sm)) in
  match read_storage sm offset (piece_size (chunks sm)) with
  | None => None
  | Some (Err e) => Some (Err e, sm)
  | Some (Ok buffer) =>
      match set Sha512 (tree sm) piece_num buffer with
      | None => None
      | Some (Err e) => Some (Err (MerkleTreeError e), sm)
      | Some (Ok t) => Some (Ok tt, with_tree sm t)
      end
  end.

(** [write_chunk]; the map after the call is returned with the result, since
    bytes written before an error stay written. *)
Definition write_chunk (sm : StorageMap) (chunk : N) (data : list byte)
  : option (result unit MapErrorKind * StorageMap) :=
  if has_chunk sm chunk then Some (Err (ChunkAlreadyExists chunk), sm)
  else
    let? offset := umul m usize_bits chunk (chunk_size (chunks sm)) in
    match write m usize_bits (storage sm) offset data with
    | (None, _) => None
    | (Some (Err e), st') => Some (Err (from_storage_error e), with_storage sm st')
    | (Some (Ok _), st') =>
        let sm1 := with_storage sm st' in
        let? bm := bv_set (cm_bitmap (chunks sm1)) chunk true in
        let sm2 := with_bitmap sm1 bm in
        let? piece_num := piece_from_chunk sm2 chunk in
        let? complete := has_piece sm2 piece_num in
        if complete then update_tree sm2 piece_num else Some (Ok tt, sm2)
    end.

End Map.

(** ** Concrete inputs *)

Definition resource_of (l : string) (bytes : list byte) : string * Resource :=
  (l, {| location := l; res_size := N.of_nat (length bytes); contents := bytes |}).

Definition storage_of (rs : list (string * list byte)) : GenericStorage :=
  {| st_name := "storage";
     resources := map (fun '(l, b) => resource_of l b) rs;
     total_size := fold_right N.add 0 (map (fun '(_, b) => N.of_nat (length b)) rs) |}.

(** One resource of 256 bytes; no resource at all; one resource of 10 bytes. *)
Definition storage_256 : GenericStorage := storage_of [("r0"%string, repeat x00 256)].
Definition storage_empty : GenericStorage := storage_of [].
Definition storage_10 : GenericStorage := storage_of [("r0"%string, repeat x00 10)].

(** The chunk map of a one-piece storage ([ChunkMap::new(16384, true)] or
    [ChunkMap::new(4096, true)]) with chunk 0 missing, as a loaded map has it. *)
Definition chunks_missing_0 : ChunkMap :=
  {| cm_bitmap := [false; true; true; true]; chunk_size := 4096; chunk_count := 4;
     piece_size := 16384; piece_count := 1; chunks_in_piece := 4 |}.

(** A storage map over one 16384-byte resource (one whole piece) and one
    over one 4096-byte resource (a piece that runs past the end), both
    missing chunk 0, with a one-leaf tree as [MerkleTree::new(piece_count)]. *)
Definition map_16384 : StorageMap :=
  {| tree := tree_new Sha512 1; chunks := chunks_missing_0;
     storage := storage_of [("r0"%string, repeat x00 (N.to_nat 16384))] |}.

Definition map_4096 : StorageMap :=
  {| tree := tree_new Sha512 1; chunks := chunks_missing_0;
     storage := storage_of [("r0"%string, repeat x00 (N.to_nat 4096))] |}.

Definition chunk_data : list byte := repeat x01 (N.to_nat 4096).



(** A storage map over one 16384-byte resource missing chunks 0 and 1. *)
Definition chunks_missing_01 : ChunkMap :=
  {| cm_bitmap := [false; false; true; true]; chunk_size := 4096; chunk_count := 4;
     piece_size := 16384; piece_count := 1; chunks_in_piece := 4 |}.

Definition map_16384_missing_01 : StorageMap :=
  {| tree := tree_new Sha512 1; chunks := chunks_missing_01;
     storage := storage_of [("r0"%string, repeat x00 (N.to_nat 16384))] |}.

(** A storage map over one 16384-byte resource holding every chunk. *)
Definition chunks_full : ChunkMap :=
  {| cm_bitmap := [true; true; true; true]; chunk_size := 4096; chunk_count := 4;
     piece_size := 16384; piece_count := 1; chunks_in_piece := 4 |}.

Definition map_16384_full : StorageMap :=
  {| tree := tree_new Sha512 1; chunks := chunks_full;
     storage := storage_of [("r0"%string, repeat x00 (N.to_nat 16384))] |}.

(** Trees built by [MerkleTree::from] over two and three one-byte blocks. *)
Definition tree_of (blocks : list (list byte)) : MerkleTree :=
  match tree_from Sha512 blocks with Some t => t | None => tree_new Sha512 0 end.

Definition tree2 : MerkleTree := tree_of [[x01]; [x02]].
Definition tree3 : MerkleTree := tree_of [[x01]; [x02]; [x03]].

(** The proof a tree generates for a leaf. *)
Definition proof_of (t : MerkleTree) (i : N) : Proof :=
  match prove Sha512 t i with
  | Some (Ok p) => p
  | _ => {| leaf_index := i; leaf_hash := []; path := []; partial := false |}
  end.

(** A proof with its last path entry dropped, flagged partial. *)
Definition shortened (p : Proof) : Proof :=
  {| leaf_index := leaf_index p; leaf_hash := leaf_hash p;
     path := removelast (path p); partial := true |}.

(** A two-leaf tree that holds only leaf 0 of [tree2], set with
    [MerkleTree::set] on [MerkleTree::new(2)]. *)
Definition tree2_leaf0_only : MerkleTree :=
  match set Sha512 (tree_new Sha512 2) 0 (leaf_hash (proof_of tree2 0)) with
  | Some (Ok t) => t
  | _ => tree_new Sha512 2
  end.

(** ** Facts about the concrete inputs *)

Example chunkmap_16384 :
  option_map (fun c => (chunk_size c, chunk_count c, piece_size c, piece_count c,
                        chunks_in_piece c))
             (chunkmap_new Checked 64 16384 true)
  = Some (4096, 4, 16384, 1, 4).
Proof. vm_compute. reflexivity. Qed.

Example chunkmap_4096 :
  option_map (fun c => (chunk_size c, chunk_count c, piece_size c, piece_count c,
                        chunks_in_piece c))
             (chunkmap_new Checked 64 4096 true)
  = Some (4096, 4, 16384, 1, 4).
Proof. vm_compute. reflexivity. Qed.

(** The repository's view test [test_build] (scenario S1). *)
Example view_scenario_S1 :
  view Checked 64
    (storage_of [("A"%string, repeat x00 1024); ("B"%string, []); ("C"%string, repeat x00 511);
                 ("D"%string, repeat x00 257); ("E"%string, []); ("F"%string, repeat x00 64);
                 ("G"%string, repeat x00 128); ("H"%string, repeat x00 64)]) 1 2046
  = Some (Ok [(0%nat, {| shard_start := 1; shard_end := 1024 |});
              (2%nat, {| shard_start := 0; shard_end := 511 |});
              (3%nat, {| shard_start := 0; shard_end := 257 |});
              (5%nat, {| shard_start := 0; shard_end := 64 |});
              (6%nat, {| shard_start := 0; shard_end := 128 |});
              (7%nat, {| shard_start := 0; shard_end := 63 |})]).
Proof. vm_compute. reflexivity. Qed.

(** ** Claims *)

(** C1 (code_bug).  On a storage of one 256-byte resource, [iter(256)]
    yields no block at all: the first [advance] reads bytes [0, 256) and
    moves the offset to 256, and [get] then compares the offset with the
    block size (256), not with [total_size], and returns [None]. *)
Theorem C1_iter_yields_no_block :
  forall md, drain md 64 storage_256 10 (iter 256) = Some ([], true).
Proof. intros []; vm_compute; reflexivity. Qed.

(** C2 (code_bug).  Completing piece 0 by [write_chunk(0, data)] panics:
    [update_tree] hands the raw 16384-byte piece to [MerkleTree::set], whose
    [set_hash] copies it into a 64-byte slot with [clone_from_slice]. *)
Theorem C2_write_chunk_completing_piece_panics :
  forall md, write_chunk md 64 map_16384 0 chunk_data = None.
Proof. intros []; vm_compute; reflexivity. Qed.

(** C4 (code_bug).  The zero-length request (5, 0) over one 10-byte
    resource is not a success: with checked arithmetic [UniformView::add]
    panics on [min(size, 0) - 5]; with wrapping arithmetic [build] fails. *)
Theorem C4_zero_length_view_fails :
  view Checked 64 storage_10 5 0 = None /\
  view Wrapping 64 storage_10 5 0 = Some (Err (ViewBuildError 5 5 10)).
Proof. split; vm_compute; reflexivity. Qed.

Lemma uadd_ok m bits (a b : N) : a + b < 2 ^ bits -> uadd m bits a b = Some (a + b).
Proof.
  intros H. unfold uadd, overflow, usize_modulus.
  replace (a + b <? 2 ^ bits) with true by (symmetry; apply N.ltb_lt; exact H). reflexivity.
Qed.
Lemma usub_ok m bits (a b : N) : b <= a -> usub m bits a b = Some (a - b).
Proof.
  intros H. unfold usub. replace (b <=? a) with true by (symmetry; apply N.leb_le; exact H).
  reflexivity.
Qed.
Lemma umul_ok m bits (a b : N) : a * b < 2 ^ bits -> umul m bits a b = Some (a * b).
Proof.
  intros H. unfold umul, overflow, usize_modulus.
  replace (a * b <? 2 ^ bits) with true by (symmetry; apply N.ltb_lt; exact H). reflexivity.
Qed.

Ltac step_usize :=
  repeat (first
    [ rewrite uadd_ok by lia
    | rewrite usub_ok by lia
    | progress cbv beta iota zeta ]).

Lemma allocated_size_mul (block q : N) :
  0 < block -> allocated_size block (q * block) = q * block.
Proof.
  intros Hb. unfold allocated_size. f_equal.
  replace (q * block + block - 1) with ((block - 1) + q * block) by lia.
  rewrite N.div_add by lia. rewrite N.div_small by lia. lia.
Qed.

(** C5 (code_bug).  On a file system of [block]-byte blocks without "a",
    [Storage::new] with the location "a" listed twice with [block] bytes
    each succeeds with [total_size] [2 * block] while it holds one resource
    of [block] bytes: the first [add] creates "a", the second opens it (its
    allocated size is [block]) and replaces the [IndexMap] entry, but
    [total_size] has counted both items. *)
Theorem C5_duplicate_location_total_size :
  forall md (block : N),
    0 < block -> 2 * block < 2 ^ 64 ->
    match storage_new md 64 "s" [("a"%string, block); ("a"%string, block)] (empty_fs block) with
    | Some (Ok (st, _)) =>
        total_size st = 2 * block /\ fold_right N.add 0 (res_sizes st) = block
        /\ length (resources st) = 1%nat
    | _ => False
    end.
Proof.
  intros md block Hb Hov.
  assert (Ha : allocated_size block block = block)
    by (pose proof (allocated_size_mul block 1 Hb) as H; rewrite N.mul_1_l in H; exact H).
  unfold storage_new. cbn [storage_new_loop total_size].
  rewrite (uadd_ok md 64 0 block) by lia. cbv beta iota zeta.
  unfold storage_add at 1, res_exists, res_create. cbn [fs_files empty_fs fs_lookup].
  replace (block =? 0) with false by (symmetry; apply N.eqb_neq; lia).
  cbn [f_allocated res_size fs_block empty_fs]. rewrite Ha, N.eqb_refl. cbn [negb].
  cbn [storage_new_loop total_size resources st_name].
  rewrite (uadd_ok md 64 (0 + block) block) by lia. cbv beta iota zeta.
  unfold storage_add, res_exists, res_open. cbn [fs_files fs_lookup String.eqb Ascii.eqb Bool.eqb].
  cbn [f_allocated res_size]. rewrite N.eqb_refl. cbn - [N.mul].
  repeat split; lia.
Qed.

Lemma C5_duplicate_location_total_size_witness :
  0 < 4096 /\ 2 * 4096 < 2 ^ 64 /\
  match storage_new Checked 64 "s" [("a"%string, 4096); ("a"%string, 4096)] (empty_fs 4096) with
  | Some (Ok (st, _)) =>
      total_size st = 2 * 4096 /\ fold_right N.add 0 (res_sizes st) = 4096
      /\ length (resources st) = 1%nat
  | _ => False
  end.
Proof.
  split; [lia|]. split; [vm_compute; reflexivity|].
  exact (C5_duplicate_location_total_size Checked 4096 ltac:(lia) ltac:(vm_compute; reflexivity)).
Defined.

Lemma next_empty_storage_fixpoint :
  forall md,
    next md 64 storage_empty (iter 16384)
    = Some (Some (repeat x00 (N.to_nat 16384)), iter 16384).
Proof. intros []; vm_compute; reflexivity. Qed.

(** C3 (code_bug).  On the storage without resources, [iter(16384)] (the
    iterator [StorageMap::new] builds the tree from) never ends: every read
    fails, [advance] sets the offset to [total_size] = 0, and [get] compares
    0 with the block size 16384 and yields the buffer again.  Every number
    [n] of calls to [next] yields [n] blocks. *)
Theorem C3_iter_never_ends :
  forall md n,
    drain md 64 storage_empty n (iter 16384)
    = Some (repeat (repeat x00 (N.to_nat 16384)) n, false).
Proof.
  intros md n. induction n as [|n IH]; [reflexivity|].
  cbn [drain]. rewrite next_empty_storage_fixpoint, IH. reflexivity.
Qed.

(** C9 (code_bug).  [ChunkMap::new] at the largest [usize] total size:
    [div_upper]'s [total_size + piece_size - 1] overflows, so a debug build
    panics and a release build gets [piece_count] 0 instead of
    [ceil(total_size / 16384)], on 32-bit and on 64-bit targets alike. *)
Theorem C9_piece_count_overflow :
  chunkmap_new Checked 32 (2 ^ 32 - 1) true = None /\
  option_map (fun c => (piece_size c, piece_count c, chunk_count c))
             (chunkmap_new Wrapping 32 (2 ^ 32 - 1) true) = Some (16384, 0, 0) /\
  chunkmap_new Checked 64 (2 ^ 64 - 1) true = None /\
  option_map (fun c => (piece_size c, piece_count c, chunk_count c))
             (chunkmap_new Wrapping 64 (2 ^ 64 - 1) true) = Some (16384, 0, 0).
Proof. repeat split; vm_compute; reflexivity. Qed.

Lemma nth_error_flat_map8 {A} (g : A -> list bool) (l : list A) (j : nat) :
  (forall x, length (g x) = 8%nat) ->
  nth_error (flat_map g l) j =
  match nth_error l (j / 8) with Some x => nth_error (g x) (j mod 8) | None => None end.
Proof.
  intros Hg. revert j. induction l as [|x l IH]; intros j.
  - cbn [flat_map]. rewrite !nth_error_nil. reflexivity.
  - cbn [flat_map]. destruct (Nat.ltb_spec j 8) as [Hj|Hj].
    + rewrite nth_error_app1 by (rewrite Hg; exact Hj).
      rewrite Nat.div_small, Nat.mod_small by exact Hj. reflexivity.
    + rewrite nth_error_app2 by (rewrite Hg; exact Hj). rewrite Hg, IH.
      assert (Ej : j = ((j - 8) + 1 * 8)%nat) by lia.
      replace (j / 8)%nat with (S ((j - 8) / 8)%nat)
        by (rewrite Ej at 2; rewrite Nat.div_add by lia; lia).
      replace (j mod 8)%nat with ((j - 8) mod 8)%nat
        by (rewrite Ej at 2; rewrite Nat.Div0.mod_add; reflexivity).
      reflexivity.
Qed.

Lemma testbit_lor8 (x0 x1 x2 x3 x4 x5 x6 x7 : bool) (r : nat) :
  (r < 8)%nat ->
  N.testbit
    (N.lor (N.lor (N.lor (N.lor (N.lor (N.lor (N.lor
       (N.shiftl (N.b2n x0) 7) (N.shiftl (N.b2n x1) 6)) (N.shiftl (N.b2n x2) 5))
       (N.shiftl (N.b2n x3) 4)) (N.shiftl (N.b2n x4) 3)) (N.shiftl (N.b2n x5) 2))
       (N.shiftl (N.b2n x6) 1)) (N.shiftl (N.b2n x7) 0))
    (N.of_nat (7 - r)) = nth r [x0; x1; x2; x3; x4; x5; x6; x7] false.
Proof.
  intros Hr.
  do 8 (destruct r as [|r]; [destruct x0, x1, x2, x3, x4, x5, x6, x7; reflexivity|]).
  lia.
Qed.

Lemma to_bytes_bit_shiftl (bv : list bool) (i k : nat) :
  to_bytes_bit bv i k =
  N.shiftl (N.b2n (if Nat.leb (length bv) (i * 8 + k) then false else nth (i * 8 + k) bv false))
           (N.of_nat (7 - k)).
Proof.
  unfold to_bytes_bit. destruct (Nat.leb (length bv) (i * 8 + k)); [|reflexivity].
  cbn [N.b2n]. rewrite N.shiftl_0_l. reflexivity.
Qed.

Lemma bv_reload_get (bv : list bool) (j : nat) :
  nth_error (bv_from_bytes (bv_to_bytes bv)) j =
  if Nat.ltb j (length bv) then nth_error bv j
  else if Nat.ltb (j / 8) (length bv / 8 + (if Nat.eqb (length bv mod 8) 0 then 0 else 1))
       then Some false else None.
Proof.
  unfold bv_from_bytes, bv_to_bytes.
  rewrite nth_error_flat_map8 by reflexivity.
  rewrite nth_error_map, nth_error_seq. cbv zeta.
  set (len := (length bv / 8 + (if Nat.eqb (length bv mod 8) 0 then 0 else 1))%nat).
  assert (Hlen : (length bv <= len * 8)%nat).
  { subst len. pose proof (Nat.div_mod (length bv) 8 ltac:(lia)) as E.
    pose proof (Nat.mod_upper_bound (length bv) 8 ltac:(lia)).
    destruct (Nat.eqb_spec (length bv mod 8) 0); lia. }
  pose proof (Nat.div_mod j 8 ltac:(lia)) as Ej.
  pose proof (Nat.mod_upper_bound j 8 ltac:(lia)) as Hr.
  set (q := (j / 8)%nat) in *. set (r := (j mod 8)%nat) in *.
  destruct (Nat.ltb_spec q len) as [Hq|Hq]; cbn [option_map].
  - unfold byte_bits. rewrite nth_error_map, nth_error_seq.
    replace (Nat.ltb r 8) with true by (symmetry; apply Nat.ltb_lt; exact Hr). cbn [option_map].
    rewrite !to_bytes_bit_shiftl. cbn [Nat.sub N.of_nat Pos.of_succ_nat].
    rewrite (testbit_lor8 _ _ _ _ _ _ _ _ r Hr).
    replace (nth r _ false)
      with (if Nat.leb (length bv) (q * 8 + r) then false else nth (q * 8 + r) bv false).
    2: { do 8 (destruct r as [|r]; [rewrite ?Nat.add_0_r; reflexivity|]). lia. }
    replace (q * 8 + r)%nat with j by lia.
    destruct (Nat.ltb_spec j (length bv)) as [Hj|Hj].
    + replace (Nat.leb (length bv) j) with false by (symmetry; apply Nat.leb_gt; exact Hj).
      symmetry. apply nth_error_nth'. exact Hj.
    + replace (Nat.leb (length bv) j) with true by (symmetry; apply Nat.leb_le; exact Hj).
      reflexivity.
  - destruct (Nat.ltb_spec j (length bv)) as [Hj|Hj]; [lia|]. reflexivity.
Qed.





Lemma shiftr1_bounds (x : N) : 2 * N.shiftr x 1 <= x <= 2 * N.shiftr x 1 + 1.
Proof.
  rewrite N.shiftr_div_pow2. change (2 ^ 1) with 2.
  pose proof (N.div_mod x 2 ltac:(lia)). pose proof (N.mod_lt x 2 ltac:(lia)).
  set (q := x / 2) in *. set (r := x mod 2) in *. lia.
Qed.

Lemma list_eqb_refl {A} (eqA : A -> A -> bool) (l : list A) :
  (forall x, eqA x x = true) -> list_eqb eqA l l = true.
Proof.
  intros Hr. induction l as [|x l IH]; simpl; [reflexivity|].
  rewrite Hr, IH. reflexivity.
Qed.

Lemma bytes_eqb_refl (b : list byte) : bytes_eqb b b = true.
Proof. apply list_eqb_refl. intros x. apply Byte.byte_dec_lb. reflexivity. Qed.

Lemma entry_eqb_refl (e : option (list byte)) : entry_eqb e e = true.
Proof. destruct e; simpl; [apply bytes_eqb_refl | reflexivity]. Qed.

Lemma validate_refl (p : Proof) : validate p p = Ok tt.
Proof.
  unfold validate. rewrite N.eqb_refl, Nat.eqb_refl, list_eqb_refl
    by apply entry_eqb_refl.
  rewrite eqb_reflx. simpl. destruct (partial p); reflexivity.
Qed.

Lemma tree_size_loop_sum_ge (f : nat) (lc h sum : N) :
  sum <= fst (tree_size_loop f lc h sum).
Proof.
  revert lc h sum. induction f as [|f IH]; intros lc h sum; cbn [tree_size_loop fst snd]; [lia|].
  destruct (lc <=? 1); cbn [fst snd]; [lia|]. specialize (IH (N.shiftr (lc + 1) 1) (h + 1) (sum + lc)). lia.
Qed.

Lemma tree_size_loop_height_ge (f : nat) (lc h sum : N) :
  h <= snd (tree_size_loop f lc h sum).
Proof.
  revert lc h sum. induction f as [|f IH]; intros lc h sum; cbn [tree_size_loop fst snd]; [lia|].
  destruct (lc <=? 1); cbn [fst snd]; [lia|]. specialize (IH (N.shiftr (lc + 1) 1) (h + 1) (sum + lc)). lia.
Qed.

Lemma tree_size_loop_end_ge (f : nat) (lc h sum : N) :
  sum + lc <= fst (tree_size_loop (S f) lc h sum).
Proof.
  cbn [tree_size_loop]. destruct (lc <=? 1); cbn [fst]; [lia|].
  pose proof (tree_size_loop_sum_ge f (N.shiftr (lc + 1) 1) (h + 1) (sum + lc)). lia.
Qed.

Lemma tree_size_leaves_height (L : N) :
  L <= fst (tree_size L) /\ 2 <= snd (tree_size L).
Proof.
  unfold tree_size.
  pose proof (tree_size_loop_end_ge (N.to_nat L) L 0 0) as Hs.
  assert (Hh : 1 <= snd (tree_size_loop (S (N.to_nat L)) L 0 0)).
  { cbn [tree_size_loop]. destruct (L <=? 1); cbn [snd]; [lia|].
    pose proof (tree_size_loop_height_ge (N.to_nat L) (N.shiftr (L + 1) 1) (0 + 1) (0 + L)). lia. }
  destruct (tree_size_loop (S (N.to_nat L)) L 0 0) as [sum h]; simpl in *.
  destruct (h =? 1) eqn:E; simpl; [|apply N.eqb_neq in E]; lia.
Qed.

Lemma list_eqb_sound {A} (eqA : A -> A -> bool) (l1 l2 : list A) :
  (forall x y, eqA x y = true -> x = y) -> list_eqb eqA l1 l2 = true -> l1 = l2.
Proof.
  intros Hs. revert l2. induction l1 as [|x l1 IH]; intros [|y l2]; cbn; try discriminate.
  - reflexivity.
  - intros E. apply andb_prop in E as [E1 E2]. f_equal; [apply Hs | apply IH]; assumption.
Qed.

Lemma bytes_eqb_sound (a b : list byte) : bytes_eqb a b = true -> a = b.
Proof. apply list_eqb_sound. intros x y. apply Byte.byte_dec_bl. Qed.

Lemma entry_eqb_sound (a b : option (list byte)) : entry_eqb a b = true -> a = b.
Proof.
  destruct a, b; cbn; try discriminate; [intros E; f_equal; apply bytes_eqb_sound, E | reflexivity].
Qed.

Lemma list_eqb_iff_entry (l1 l2 : list (option (list byte))) :
  list_eqb entry_eqb l1 l2 = true <-> l1 = l2.
Proof.
  split; [apply list_eqb_sound, entry_eqb_sound|intros <-; apply list_eqb_refl, entry_eqb_refl].
Qed.

Section RoundTrip.
Context (D : Type) `{Digest D}.

Lemma prove_verify (t : MerkleTree) (i : N) (p : Proof) :
  prove D t i = Some (Ok p) -> verify D t p = Some (Ok tt).
Proof.
  intros Hp. pose proof Hp as Hp0. unfold prove in Hp.
  destruct (il_new i 0 (mt_leaf_count t)) as [il|] eqn:Hil; [|discriminate].
  destruct (prove_loop D (N.to_nat (mt_height t)) t il []) as [pth|]; [|discriminate].
  destruct (Nat.ltb (length pth) 2) eqn:Hlen; [discriminate|].
  destruct (get_hash D t i) as [lh|] eqn:Hg; [|discriminate].
  injection Hp as <-. unfold il_new in Hil.
  destruct ((0 <=? i) && (i <? mt_leaf_count t) && negb (mt_leaf_count t <=? 0)) eqn:Hc;
    [|discriminate].
  apply andb_prop in Hc as [Hc _]. apply andb_prop in Hc as [_ Hc]. apply N.ltb_lt in Hc.
  unfold verify; simpl.
  replace (mt_leaf_count t <=? i) with false by (symmetry; apply N.leb_gt; lia).
  rewrite Hlen, Hg, bytes_eqb_refl. simpl. rewrite Hp0. simpl.
  f_equal. apply validate_refl.
Qed.

Section Built.
Variable t : MerkleTree.
Variable nodes : N.
Hypothesis Hbuilt : built t = true.
Hypothesis Hbm : length (mt_bitmap t) = N.to_nat nodes.
Hypothesis Hhs : length (mt_hashes t) = (length (mt_bitmap t) * N.to_nat output_size)%nat.

Lemma has_in_range (j : N) : j < nodes -> has t j = true.
Proof.
  intros Hj. unfold has, bv_get.
  destruct (nth_error (mt_bitmap t) (N.to_nat j)) as [b|] eqn:E.
  - apply nth_error_In in E. unfold built in Hbuilt.
    rewrite forallb_forall in Hbuilt. apply Hbuilt in E. exact E.
  - apply nth_error_None in E. lia.
Qed.

Lemma get_hash_in_range (j : N) : j < nodes -> get_hash D t j <> None.
Proof.
  intros Hj. unfold get_hash.
  replace (N.of_nat (length (mt_hashes t)) <? j * output_size + output_size) with false.
  - discriminate.
  - symmetry. apply N.ltb_ge. rewrite Hhs, Hbm, Nat2N.inj_mul, !N2Nat.id. nia.
Qed.

Lemma sibling_in_level (il : IndexedLevel) (j : N) :
  il_start il <= il_index il < il_end il -> sibling il = Some j ->
  il_start il <= j < il_end il.
Proof.
  intros Hr. unfold sibling.
  destruct (N.land (il_index il - il_start il) 1 =? 1) eqn:Eo.
  - intros [= <-]. apply N.eqb_eq in Eo.
    destruct (N.eq_dec (il_index il) (il_start il)) as [E|E].
    + rewrite E, N.sub_diag in Eo. discriminate.
    + lia.
  - destruct (il_index il =? il_end il - 1) eqn:Ee; [discriminate|].
    intros [= <-]. apply N.eqb_neq in Ee. lia.
Qed.

Lemma il_down_walk (il : IndexedLevel) :
  walk_ok nodes il ->
  (il_end il - il_start il = 1 \/ il_end il <= nodes) /\
  exists il', il_down il = Some il' /\ walk_ok nodes il'.
Proof.
  intros [Hr Hw]. unfold il_down, level_down.
  replace (il_end il <=? il_start il) with false by (symmetry; apply N.leb_gt; lia).
  set (lc := il_end il - il_start il) in *.
  pose proof (shiftr1_bounds (il_end il - il_start il + 1)) as Hb1.
  pose proof (shiftr1_bounds (il_index il - il_start il)) as Hb2.
  unfold parent.
  assert (Hnew : il_end il <= il_end il + N.shiftr (il_index il - il_start il) 1
                 < il_end il + N.shiftr (il_end il - il_start il + 1) 1) by lia.
  destruct Hw as [H1 | (f & h & Hf & Hs)].
  - split; [left; exact H1|]. eexists; split; [reflexivity|].
    split; cbn -[N.shiftr N.add N.sub N.land N.eqb]; [exact Hnew|]. left. subst lc. lia.
  - destruct (N.eq_dec lc 1) as [E1|E1].
    + split; [left; exact E1|]. eexists; split; [reflexivity|].
      split; cbn -[N.shiftr N.add N.sub N.land N.eqb]; [exact Hnew|]. left. subst lc. lia.
    + destruct f as [|f]; [lia|].
      cbn [tree_size_loop] in Hs. replace (lc <=? 1) with false in Hs by (symmetry; apply N.leb_gt; lia).
      split.
      * right. pose proof (tree_size_loop_sum_ge f (N.shiftr (lc + 1) 1) (h + 1) (il_start il + lc)).
        subst lc. lia.
      * eexists; split; [reflexivity|]. split; cbn -[N.shiftr N.add N.sub N.land N.eqb]; [exact Hnew|].
        right. exists f, (h + 1). cbn -[N.shiftr N.add N.sub N.land N.eqb].
        rewrite N.add_comm, N.add_sub.
        replace (il_start il + lc) with (il_end il) in Hs by (subst lc; lia).
        split; [|exact Hs]. subst lc. lia.
Qed.

Lemma prove_loop_full (f : nat) (il : IndexedLevel) (acc : list (option (list byte))) :
  walk_ok nodes il ->
  exists p, prove_loop D f t il acc = Some p /\ length p = (length acc + f)%nat.
Proof.
  revert il acc. induction f as [|f IH]; intros il acc Hw; cbn -[N.shiftr N.add N.sub N.land N.eqb].
  - exists acc. split; [reflexivity | lia].
  - destruct (il_down_walk il Hw) as [Hend (il' & Hd & Hw')].
    destruct (sibling il) as [j|] eqn:Hs.
    + pose proof (proj1 Hw) as Hr.
      pose proof (sibling_in_level il j Hr Hs) as Hj.
      assert (HjN : j < nodes).
      { destruct Hend as [E|E]; [|lia].
        exfalso. unfold sibling in Hs.
        replace (il_index il) with (il_start il) in Hs by lia.
        rewrite N.sub_diag in Hs. cbn -[N.shiftr N.add N.sub N.land N.eqb] in Hs.
        replace (il_start il =? il_end il - 1) with true in Hs
          by (symmetry; apply N.eqb_eq; lia). discriminate. }
      rewrite (has_in_range j HjN).
      destruct (get_hash D t j) as [hj|] eqn:Hg; [|exfalso; exact (get_hash_in_range j HjN Hg)].
      cbn -[N.shiftr N.add N.sub N.land N.eqb]. rewrite Hd. cbn -[N.shiftr N.add N.sub N.land N.eqb].
      destruct (IH il' (acc ++ [Some hj]) Hw') as (p & Hp & Hl).
      exists p. split; [exact Hp|]. rewrite Hl, length_app. cbn -[N.shiftr N.add N.sub N.land N.eqb]. lia.
    + rewrite Hd. cbn -[N.shiftr N.add N.sub N.land N.eqb].
      destruct (IH il' (acc ++ [None]) Hw') as (p & Hp & Hl).
      exists p. split; [exact Hp|]. rewrite Hl, length_app. cbn -[N.shiftr N.add N.sub N.land N.eqb]. lia.
Qed.

End Built.

(** C6 (confirmed).  For a fully built tree laid out as [MerkleTree::new]
    and [MerkleTree::from] lay it out (a bitmap of [tree_size] nodes, one
    hash slot of [output_size] bytes per node, the height of [tree_size])
    and every leaf index [i < leaf_count], [prove(i)] succeeds and
    [verify(prove(i))] is [Ok]. *)
Theorem C6_prove_verify_roundtrip (t : MerkleTree) (i : N) :
  tree_size (mt_leaf_count t) = (N.of_nat (length (mt_bitmap t)), mt_height t) ->
  length (mt_hashes t) = (length (mt_bitmap t) * N.to_nat output_size)%nat ->
  built t = true ->
  i < mt_leaf_count t ->
  exists p, prove D t i = Some (Ok p) /\ verify D t p = Some (Ok tt).
Proof.
  intros Hts Hhs Hb Hi.
  set (nodes := N.of_nat (length (mt_bitmap t))).
  assert (Hbm : length (mt_bitmap t) = N.to_nat nodes) by (subst nodes; lia).
  pose proof (tree_size_leaves_height (mt_leaf_count t)) as [HL Hh].
  rewrite Hts in HL, Hh. simpl in HL, Hh.
  assert (Hw : walk_ok nodes {| il_index := i; il_start := 0; il_end := mt_leaf_count t |}).
  { split; simpl; [lia|].
    destruct (N.eq_dec (mt_leaf_count t) 1) as [E|E]; [left; lia|].
    right. exists (S (N.to_nat (mt_leaf_count t))), 0. split; [lia|].
    unfold tree_size in Hts.
    destruct (tree_size_loop (S (N.to_nat (mt_leaf_count t))) (mt_leaf_count t) 0 0)
      as [sum h] eqn:E2.
    rewrite N.sub_0_r, E2. simpl.
    destruct (h =? 1); injection Hts as Hs _; subst nodes; lia. }
  destruct (prove_loop_full t nodes Hb Hbm Hhs (N.to_nat (mt_height t)) _ [] Hw)
    as (pth & Hp & Hl).
  assert (Hg : get_hash D t i <> None)
    by (apply (get_hash_in_range t nodes Hbm Hhs); lia).
  destruct (get_hash D t i) as [lh|] eqn:Hgi; [|congruence].
  assert (Hpr : prove D t i = Some (Ok {| leaf_index := i; leaf_hash := lh; path := pth;
                                        partial := negb (built t) |})).
  { unfold prove, il_new.
    replace ((0 <=? i) && (i <? mt_leaf_count t) && negb (mt_leaf_count t <=? 0)) with true
      by (symmetry; apply andb_true_intro; split;
          [apply andb_true_intro; split; [apply N.leb_le | apply N.ltb_lt]; lia
          | apply negb_true_iff, N.leb_gt; lia]).
    simpl. rewrite Hp. simpl.
    replace (Nat.ltb (length pth) 2) with false by (symmetry; apply Nat.ltb_ge; lia).
    rewrite Hgi. reflexivity. }
  eexists. split; [exact Hpr|]. exact (prove_verify t i _ Hpr).
Qed.

Lemma prove_fields (t : MerkleTree) (i : N) (p : Proof) :
  prove D t i = Some (Ok p) -> leaf_index p = i /\ partial p = negb (built t).
Proof.
  unfold prove. destruct (il_new i 0 (mt_leaf_count t)); [|discriminate].
  destruct (prove_loop D (N.to_nat (mt_height t)) t i0 []); [|discriminate].
  destruct (Nat.ltb (length l) 2); [discriminate|].
  destruct (get_hash D t i); [|discriminate].
  intros [= <-]. split; reflexivity.
Qed.

Lemma prove_result (t : MerkleTree) (i : N) :
  match prove D t i with
  | Some (Ok p) => (2 <= length (path p))%nat
  | Some (Err e) => e = InvalidLength
  | None => True
  end.
Proof.
  unfold prove. destruct (il_new i 0 (mt_leaf_count t)); [|exact I]. cbn.
  destruct (prove_loop D (N.to_nat (mt_height t)) t i0 []) as [l|]; [|exact I]. cbn.
  destruct (Nat.leb (length l) 1) eqn:E; [reflexivity|].
  destruct (get_hash D t i); [|exact I]. cbn. apply Nat.leb_gt in E. exact E.
Qed.

(** C7 (corrected).  [verify] checks, in this order: the leaf index is in
    range ([IndexOutOfRange]), the path has at least two entries
    ([InvalidLength]), the leaf hash is the tree's ([InvalidHash]), the
    tree's own [prove] succeeds (its only error is [InvalidLength]); a
    proof that passes all four is handed to [Proof::validate] with the
    tree's own proof.  It verifies as [PartialProof] exactly when it passes
    the four checks, the tree's own proof has at least two entries and
    agrees with it on their common path prefix, and its [partial] flag
    differs from the tree's own, [!built()]: [partial = built()]. *)
Theorem C7_verify_partial_flag_mismatch (t : MerkleTree) (pr : Proof) :
  (mt_leaf_count t <= leaf_index pr -> verify D t pr = Some (Err IndexOutOfRange)) /\
  (leaf_index pr < mt_leaf_count t -> (length (path pr) < 2)%nat ->
     verify D t pr = Some (Err InvalidLength)) /\
  (leaf_index pr < mt_leaf_count t -> (2 <= length (path pr))%nat ->
   forall h, get_hash D t (leaf_index pr) = Some h -> h <> leaf_hash pr ->
     verify D t pr = Some (Err InvalidHash)) /\
  (leaf_index pr < mt_leaf_count t -> (2 <= length (path pr))%nat ->
   get_hash D t (leaf_index pr) = Some (leaf_hash pr) ->
   (forall e, prove D t (leaf_index pr) = Some (Err e) ->
      e = InvalidLength /\ verify D t pr = Some (Err InvalidLength)) /\
   (forall p, prove D t (leaf_index pr) = Some (Ok p) -> verify D t pr = Some (validate p pr))) /\
  (verify D t pr = Some (Err PartialProof) <->
   leaf_index pr < mt_leaf_count t /\ (2 <= length (path pr))%nat /\
   get_hash D t (leaf_index pr) = Some (leaf_hash pr) /\
   exists p, prove D t (leaf_index pr) = Some (Ok p) /\ (2 <= length (path p))%nat /\
     firstn (Nat.min (length (path p)) (length (path pr))) (path p)
     = firstn (Nat.min (length (path p)) (length (path pr))) (path pr) /\
     partial pr = built t).
Proof.
  assert (Gates : leaf_index pr < mt_leaf_count t -> (2 <= length (path pr))%nat ->
                  get_hash D t (leaf_index pr) = Some (leaf_hash pr) ->
                  verify D t pr = (try? p := prove D t (leaf_index pr) in Some (validate p pr))).
  { intros Hi Hl Hg. unfold verify.
    replace (mt_leaf_count t <=? leaf_index pr) with false by (symmetry; apply N.leb_gt; lia).
    replace (Nat.ltb (length (path pr)) 2) with false by (symmetry; apply Nat.ltb_ge; lia).
    rewrite Hg, bytes_eqb_refl. reflexivity. }
  pose proof (prove_result t (leaf_index pr)) as Hres.
  split; [|split; [|split; [|split]]].
  - intros Hi. unfold verify.
    replace (mt_leaf_count t <=? leaf_index pr) with true by (symmetry; apply N.leb_le; lia).
    reflexivity.
  - intros Hi Hl. unfold verify.
    replace (mt_leaf_count t <=? leaf_index pr) with false by (symmetry; apply N.leb_gt; lia).
    replace (Nat.ltb (length (path pr)) 2) with true by (symmetry; apply Nat.ltb_lt; lia).
    reflexivity.
  - intros Hi Hl h Hg Hne. unfold verify.
    replace (mt_leaf_count t <=? leaf_index pr) with false by (symmetry; apply N.leb_gt; lia).
    replace (Nat.ltb (length (path pr)) 2) with false by (symmetry; apply Nat.ltb_ge; lia).
    rewrite Hg. destruct (bytes_eqb h (leaf_hash pr)) eqn:E.
    + apply bytes_eqb_sound in E. contradiction.
    + reflexivity.
  - intros Hi Hl Hg. rewrite (Gates Hi Hl Hg). split.
    + intros e He. rewrite He in Hres |- *. subst e. split; reflexivity.
    + intros p Hp. rewrite Hp. reflexivity.
  - split.
    + intros Hv. unfold verify in Hv.
      destruct (mt_leaf_count t <=? leaf_index pr) eqn:E1; [discriminate|].
      destruct (Nat.ltb (length (path pr)) 2) eqn:E2; [discriminate|].
      destruct (get_hash D t (leaf_index pr)) as [h|] eqn:Eg; [|discriminate]. cbn in Hv.
      destruct (bytes_eqb h (leaf_hash pr)) eqn:E3; [|discriminate]. cbn in Hv.
      apply bytes_eqb_sound in E3. subst h.
      apply N.leb_gt in E1. apply Nat.ltb_ge in E2.
      split; [exact E1|]. split; [exact E2|]. split; [reflexivity|].
      destruct (prove D t (leaf_index pr)) as [[p|e]|] eqn:Hp; [|rewrite Hres in Hv; discriminate|discriminate].
      cbn in Hv. destruct (prove_fields t (leaf_index pr) p Hp) as [Hidx Hpp].
      exists p. split; [reflexivity|]. split; [exact Hres|].
      assert (Hval : validate p pr = Err PartialProof) by congruence.
      unfold validate in Hval. rewrite Hidx, N.eqb_refl in Hval. cbn [negb] in Hval.
      destruct (negb (partial p) && negb (partial pr)
                && negb (Nat.eqb (length (path p)) (length (path pr)))); [discriminate|].
      destruct (list_eqb entry_eqb _ _) eqn:Eq; [|discriminate]. cbn [negb] in Hval.
      split; [exact (list_eqb_sound entry_eqb _ _ entry_eqb_sound Eq)|].
      rewrite Hpp in Hval. destruct (built t), (partial pr); cbn in Hval; congruence.
    + intros (Hi & Hl & Hg & p & Hp & _ & Hpre & Hpart).
      rewrite (Gates Hi Hl Hg), Hp. cbn.
      destruct (prove_fields t (leaf_index pr) p Hp) as [Hidx Hpp].
      f_equal. unfold validate.
      rewrite Hidx, N.eqb_refl, Hpre, list_eqb_refl by apply entry_eqb_refl.
      rewrite Hpp, Hpart. destruct (built t); reflexivity.
Qed.

End RoundTrip.

Lemma C6_prove_verify_roundtrip_witness :
  built tree3 = true /\
  exists p, prove Sha512 tree3 2 = Some (Ok p) /\ verify Sha512 tree3 p = Some (Ok tt).
Proof.
  split; [vm_compute; reflexivity|].
  apply (C6_prove_verify_roundtrip Sha512 tree3 2); vm_compute; reflexivity.
Defined.

(** C7, the claim as stated fails on both halves.  A peer holding only
    leaf 0 of a two-leaf tree (not built) is given the genuine proof of leaf
    0 from the fully built [tree2] ([partial] false, the right leaf hash, a
    full path): [verify] fails with [InvalidLength], since the peer's own
    [prove] breaks at the missing sibling with an empty path.  And against
    the fully built [tree2] of height 2, a proof flagged partial with a
    one-entry path fails with [InvalidLength], not [PartialProof]. *)
Lemma C7_counterexample :
  built tree2_leaf0_only = false /\
  partial (proof_of tree2 0) = false /\
  verify Sha512 tree2_leaf0_only (proof_of tree2 0) = Some (Err InvalidLength) /\
  built tree2 = true /\ mt_height tree2 = 2 /\
  verify Sha512 tree2
    {| leaf_index := 0; leaf_hash := leaf_hash (proof_of tree2 0); path := [None];
       partial := true |} = Some (Err InvalidLength).
Proof. vm_compute. repeat split. Qed.

Lemma C7_verify_partial_flag_mismatch_witness :
  verify Sha512 tree3 (shortened (proof_of tree3 0)) = Some (Err PartialProof).
Proof.
  apply (proj2 (proj2 (proj2 (proj2
           (C7_verify_partial_flag_mismatch Sha512 tree3 (shortened (proof_of tree3 0))))))).
  split; [vm_compute; reflexivity|]. split; [vm_compute; lia|]. split; [vm_compute; reflexivity|].
  destruct (prove Sha512 tree3 (leaf_index (shortened (proof_of tree3 0)))) as [[p|e]|] eqn:Hp;
    [|vm_compute in Hp; discriminate Hp|vm_compute in Hp; discriminate Hp].
  exists p. split; [reflexivity|].
  vm_compute in Hp. injection Hp as <-. vm_compute. split; [lia|]. split; reflexivity.
Defined.

Lemma bv_set_spec (bv bv' : list bool) (i : N) (b : bool) :
  bv_set bv i b = Some bv' ->
  length bv' = length bv /\ bv_get bv' i = Some b /\
  forall j, j <> i -> bv_get bv' j = bv_get bv j.
Proof.
  unfold bv_set, bv_get. intros H.
  destruct (Nat.ltb (N.to_nat i) (length bv)) eqn:E; [|discriminate].
  apply Nat.ltb_lt in E.
  assert (bv' = firstn (N.to_nat i) bv ++ b :: skipn (S (N.to_nat i)) bv) as -> by congruence.
  assert (Hf : length (firstn (N.to_nat i) bv) = N.to_nat i) by (rewrite length_firstn; lia).
  split; [|split].
  - rewrite length_app, Hf, length_cons, length_skipn. lia.
  - rewrite nth_error_app2 by lia. rewrite Hf, Nat.sub_diag. reflexivity.
  - intros j Hj.
    assert (Hn : N.to_nat j <> N.to_nat i) by lia.
    destruct (Nat.lt_ge_cases (N.to_nat j) (N.to_nat i)) as [Lt|Ge].
    + rewrite nth_error_app1 by lia. rewrite nth_error_firstn. replace (N.to_nat j <? N.to_nat i)%nat with true by (symmetry; apply Nat.ltb_lt; lia). reflexivity.
    + rewrite nth_error_app2 by lia. rewrite Hf.
      destruct (N.to_nat j - N.to_nat i)%nat as [|k] eqn:Ek; [lia|].
      cbn [nth_error]. rewrite nth_error_skipn. f_equal. lia.
Qed.

Lemma update_tree_err m bits (sm sm' : StorageMap) (p : N) (e : MapErrorKind) :
  update_tree m bits sm p = Some (Err e, sm') -> sm' = sm.
Proof.
  unfold update_tree.
  destruct (umul m bits p (piece_size (chunks sm))); [|discriminate]. cbn.
  destruct (read_storage m bits sm n (piece_size (chunks sm))) as [[b|e']|]; [|congruence|discriminate].
  destruct (set Sha512 (tree sm) p b) as [[t|e']|]; congruence.
Qed.

(** C8 (corrected).  A [write_chunk(c, data)] that returns an error leaves
    the tree as it was, and the error comes from one of three places:
    bit [c] was already set ([ChunkAlreadyExists(c)], the map is returned
    as it was); the write to storage failed (the chunk map is as it was,
    the storage is the one the failed write left); or the write succeeded,
    bit [c] was set (every other bit and the layout kept), the piece of [c]
    is now complete and [update_tree] failed, leaving the map as it had it,
    with bit [c] set. *)
Theorem C8_write_chunk_error_state m bits (sm sm' : StorageMap) (c : N)
    (data : list byte) (e : MapErrorKind) :
  write_chunk m bits sm c data = Some (Err e, sm') ->
  tree sm' = tree sm /\
  ((has_chunk sm c = true /\ e = ChunkAlreadyExists c /\ sm' = sm) \/
   (has_chunk sm c = false /\ chunks sm' = chunks sm /\
    exists off se st', umul m bits c (chunk_size (chunks sm)) = Some off /\
      write m bits (storage sm) off data = (Some (Err se), st') /\
      e = from_storage_error se /\ storage sm' = st') \/
   (has_chunk sm c = false /\ has_chunk sm' c = true /\
    (forall j, j <> c -> has_chunk sm' j = has_chunk sm j) /\
    exists off n st' bm pn, umul m bits c (chunk_size (chunks sm)) = Some off /\
      write m bits (storage sm) off data = (Some (Ok n), st') /\
      bv_set (cm_bitmap (chunks sm)) c true = Some bm /\
      chunks sm' = chunks (with_bitmap sm bm) /\
      piece_from_chunk m bits (with_bitmap (with_storage sm st') bm) c = Some pn /\
      has_piece m bits (with_bitmap (with_storage sm st') bm) pn = Some true /\
      update_tree m bits (with_bitmap (with_storage sm st') bm) pn = Some (Err e, sm'))).
Proof.
  unfold write_chunk.
  destruct (has_chunk sm c) eqn:Hc.
  { intros [= <- <-]. split; [reflexivity|]. left. split; [reflexivity|]. split; reflexivity. }
  destruct (umul m bits c (chunk_size (chunks sm))) as [off|] eqn:Hoff; [|discriminate]. cbn.
  destruct (write m bits (storage sm) off data) as [[[n|se]|] st'] eqn:Hw.
  2: { intros [= <- <-]. split; [reflexivity|]. right. left.
       split; [reflexivity|]. split; [reflexivity|].
       exists off, se, st'. repeat split; first [reflexivity | assumption]. }
  2: discriminate.
  cbn. destruct (bv_set (cm_bitmap (chunks sm)) c true) as [bm|] eqn:Hbm; [|discriminate].
  cbn. destruct (piece_from_chunk m bits _ c) as [pn|] eqn:Hpn; [|discriminate]. cbn.
  destruct (has_piece m bits _ pn) as [[|]|] eqn:Hhp; [| |discriminate]; cbn.
  - intros Hu. pose proof (update_tree_err _ _ _ _ _ _ Hu) as Hs. subst sm'.
    destruct (bv_set_spec _ _ _ _ Hbm) as (_ & Hget & Hother).
    split; [reflexivity|]. right. right.
    split; [reflexivity|]. split.
    { unfold has_chunk. cbn [chunks with_bitmap with_storage cm_bitmap]. rewrite Hget. reflexivity. }
    split.
    { intros j Hj. unfold has_chunk. cbn [chunks with_bitmap with_storage cm_bitmap].
      rewrite (Hother j Hj). reflexivity. }
    exists off, n, st', bm, pn. repeat split; assumption.
  - discriminate.
Qed.

Lemma C8_write_chunk_error_state_witness :
  match write_chunk Checked 64 map_4096 0 chunk_data with
  | Some (Err e, sm') =>
      tree sm' = tree map_4096 /\
      ((has_chunk map_4096 0 = true /\ e = ChunkAlreadyExists 0 /\ sm' = map_4096) \/
       (has_chunk map_4096 0 = false /\ chunks sm' = chunks map_4096 /\
        exists off se st', umul Checked 64 0 (chunk_size (chunks map_4096)) = Some off /\
          write Checked 64 (storage map_4096) off chunk_data = (Some (Err se), st') /\
          e = from_storage_error se /\ storage sm' = st') \/
       (has_chunk map_4096 0 = false /\ has_chunk sm' 0 = true /\
        (forall j, j <> 0 -> has_chunk sm' j = has_chunk map_4096 j) /\
        exists off n st' bm pn, umul Checked 64 0 (chunk_size (chunks map_4096)) = Some off /\
          write Checked 64 (storage map_4096) off chunk_data = (Some (Ok n), st') /\
          bv_set (cm_bitmap (chunks map_4096)) 0 true = Some bm /\
          chunks sm' = chunks (with_bitmap map_4096 bm) /\
          piece_from_chunk Checked 64 (with_bitmap (with_storage map_4096 st') bm) 0 = Some pn /\
          has_piece Checked 64 (with_bitmap (with_storage map_4096 st') bm) pn = Some true /\
          update_tree Checked 64 (with_bitmap (with_storage map_4096 st') bm) pn = Some (Err e, sm')))
  | _ => False
  end.
Proof.
  destruct (write_chunk Checked 64 map_4096 0 chunk_data) as [[[u|e] sm']|] eqn:Hw.
  - vm_compute in Hw. discriminate.
  - exact (C8_write_chunk_error_state Checked 64 map_4096 sm' 0 chunk_data e Hw).
  - vm_compute in Hw. discriminate.
Defined.

(** C8, the claim as stated fails: over one 4096-byte resource whose
    piece runs past the end (a map state [StorageMap]'s [Deserialize]
    accepts), [write_chunk(0, data)] writes the bytes, sets bit 0, and then
    fails in [update_tree], whose re-read of the 16384-byte piece cannot be
    viewed; the error is returned with bit 0 set. *)
Lemma C8_counterexample :
  match write_chunk Checked 64 map_4096 0 chunk_data with
  | Some (Err e, sm') =>
      e = StorageError (ViewBuildError 0 16384 4096) /\
      has_chunk map_4096 0 = false /\ has_chunk sm' 0 = true /\
      tree sm' = tree map_4096
  | _ => False
  end.
Proof. vm_compute. repeat split. Qed.

(** * Further properties of the code *)


Lemma land1_mod2 (x : N) : N.land x 1 = x mod 2.
Proof. exact (N.land_ones x 1). Qed.

Lemma shiftr1_div2 (x : N) : N.shiftr x 1 = x / 2.
Proof. rewrite N.shiftr_div_pow2. reflexivity. Qed.

Lemma div2_facts (x : N) : x = 2 * (x / 2) + x mod 2 /\ x mod 2 < 2.
Proof. split; [apply N.div_mod; lia | apply N.mod_lt; lia]. Qed.

(** For a position inside its level, [sibling] is a different position of the same level with the same parent, and [siblings] lists the two in order; with no sibling the position is the last of its level and [siblings] ends in [None]. *)
Theorem sibling_parent (il : IndexedLevel) :
  il_start il <= il_index il < il_end il ->
  match sibling il with
  | Some j =>
      il_start il <= j < il_end il /\ j <> il_index il /\
      parent {| il_index := j; il_start := il_start il; il_end := il_end il |} = parent il /\
      siblings il = (if j <? il_index il then [Some j; Some (il_index il)]
                     else [Some (il_index il); Some j])
  | None =>
      il_index il = il_end il - 1 /\ siblings il = [Some (il_index il); None]
  end.
Proof.
  intros Hr. destruct il as [i s e]; cbn [il_index il_start il_end] in *.
  unfold sibling, siblings, parent; cbn [il_index il_start il_end].
  rewrite !land1_mod2, !shiftr1_div2.
  destruct (div2_facts (i - s)) as [Hx Hxm].
  destruct ((i - s) mod 2 =? 1) eqn:Eo.
  - apply N.eqb_eq in Eo.
    destruct (div2_facts (i - 1 - s)) as [Hy Hym].
    set (q := (i - s) / 2) in *. set (r := (i - s) mod 2) in *.
    set (q' := (i - 1 - s) / 2) in *. set (r' := (i - 1 - s) mod 2) in *.
    replace (i - 1 <? i) with true by (symmetry; apply N.ltb_lt; lia).
    cbn [il_index il_start il_end]. rewrite shiftr1_div2.
    repeat split; try lia.
  - destruct (i =? e - 1) eqn:Ee.
    + apply N.eqb_eq in Ee. split; [exact Ee | reflexivity].
    + apply N.eqb_neq in Ee. apply N.eqb_neq in Eo.
      destruct (div2_facts (i + 1 - s)) as [Hy Hym].
      set (q := (i - s) / 2) in *. set (r := (i - s) mod 2) in *.
      set (q' := (i + 1 - s) / 2) in *. set (r' := (i + 1 - s) mod 2) in *.
      replace (i + 1 <? i) with false by (symmetry; apply N.ltb_ge; lia).
      cbn [il_index il_start il_end]. rewrite shiftr1_div2.
      repeat split; try lia.
Qed.

(** [IndexedLevel::down] never fails on a valid position: it moves to [parent], into the next level, which starts where the current one ends and has half its width, rounded up. *)
Theorem il_down_parent (il : IndexedLevel) :
  il_start il <= il_index il < il_end il ->
  exists il', il_down il = Some il' /\
    il_index il' = parent il /\ il_start il' = il_end il /\
    il_end il' - il_start il' = (il_end il - il_start il + 1) / 2 /\
    il_start il' <= il_index il' < il_end il'.
Proof.
  intros Hr. destruct il as [i s e]; cbn [il_index il_start il_end] in *.
  unfold il_down, level_down, parent; cbn [il_index il_start il_end].
  replace (e <=? s) with false by (symmetry; apply N.leb_gt; lia).
  eexists. split; [reflexivity|]. cbn [il_index il_start il_end].
  rewrite !shiftr1_div2.
  destruct (div2_facts (i - s)) as [Hx Hxm]. destruct (div2_facts (e - s + 1)) as [Hy Hym].
  set (q := (i - s) / 2) in *. set (r := (i - s) mod 2) in *.
  set (q' := (e - s + 1) / 2) in *. set (r' := (e - s + 1) mod 2) in *.
  repeat split; lia.
Qed.

Lemma tree_size_loop_pow2 (k : N) (f : nat) (h s : N) :
  k < N.of_nat f ->
  tree_size_loop f (2 ^ k) h s = (s + 2 ^ (k + 1) - 1, h + k + 1).
Proof.
  revert f h s. induction k as [|k IH] using N.peano_ind; intros f h s Hf.
  - destruct f as [|f]; [lia|]. cbn [tree_size_loop]. change (2 ^ 0) with 1. rewrite N.leb_refl. change (2 ^ (0 + 1)) with 2. f_equal; lia.
  - destruct f as [|f]; [lia|]. cbn [tree_size_loop].
    assert (Hp : 1 <= 2 ^ k) by (pose proof (N.pow_nonzero 2 k ltac:(lia)); lia).
    rewrite N.pow_succ_r'.
    replace (2 * 2 ^ k <=? 1) with false by (symmetry; apply N.leb_gt; lia).
    replace (N.shiftr (2 * 2 ^ k + 1) 1) with (2 ^ k).
    2: { rewrite shiftr1_div2. rewrite N.mul_comm, N.div_add_l by lia. change (1 / 2) with 0. symmetry. apply N.add_0_r. }
    rewrite IH by lia. rewrite <- N.add_1_r, !N.pow_add_r. change (2 ^ 1) with 2. f_equal; lia.
Qed.

(** For [2 ^ k] leaves with [k >= 1], [tree_size] gives a perfect tree: [2 ^ (k + 1) - 1] nodes of height [k + 1]. *)
Theorem tree_size_pow2 (k : N) :
  1 <= k -> tree_size (2 ^ k) = (2 ^ (k + 1) - 1, k + 1).
Proof.
  intros Hk. unfold tree_size.
  assert (Hlt : k < 2 ^ k) by (apply N.pow_gt_lin_r; lia).
  rewrite tree_size_loop_pow2 by lia.
  replace (0 + k + 1 =? 1) with false by (symmetry; apply N.eqb_neq; lia).
  f_equal; lia.
Qed.

Lemma piece_size_of_min m bits total :
  total < 2 ^ bits -> piece_size_of m bits total = Some MIN_PIECE_SIZE.
Proof.
  intros Ht. unfold piece_size_of, leading_zeros.
  destruct (0 <? total) eqn:E0.
  - apply N.ltb_lt in E0.
    assert (Hs : N.size total <= bits).
    { rewrite N.size_log2 by lia. apply N.le_succ_l. apply N.log2_lt_pow2; lia. }
    assert (Hs1 : 1 <= N.size total).
    { rewrite N.size_log2 by lia. lia. }
    unfold usub. replace (bits - N.size total <=? bits) with true by (symmetry; apply N.leb_le; lia).
    replace (1 <=? bits - (bits - N.size total)) with true by (symmetry; apply N.leb_le; lia).
    cbn. f_equal. unfold MAX_PIECE_SIZE, MIN_PIECE_SIZE. cbn [N.shiftl]. lia.
  - reflexivity.
Qed.

(** [ChunkMap::new] with pointer width at least 15 bits and no overflow uses pieces of 16384 bytes made of four 4096-byte chunks, rounds the piece count up, and sets every chunk bit to [all_set]. *)
Theorem chunkmap_new_layout m bits (total : N) (all_set : bool) :
  15 <= bits -> total + MIN_PIECE_SIZE < 2 ^ bits ->
  exists cm, chunkmap_new m bits total all_set = Some cm /\
    piece_size cm = 16384 /\ chunk_size cm = 4096 /\ chunks_in_piece cm = 4 /\
    piece_count cm = (total + 16383) / 16384 /\
    chunk_count cm = 4 * piece_count cm /\
    cm_bitmap cm = repeat all_set (N.to_nat (chunk_count cm)).
Proof.
  intros Hb Ht. unfold MIN_PIECE_SIZE in Ht.
  assert (Hp : 2 ^ 15 <= 2 ^ bits) by (apply N.pow_le_mono_r; lia).
  change (2 ^ 15) with 32768 in Hp.
  unfold chunkmap_new. rewrite piece_size_of_min by (unfold MIN_PIECE_SIZE; lia).
  unfold MIN_PIECE_SIZE. cbn - [N.div N.mul N.pow N.ltb N.leb N.add N.sub].
  unfold div_upper, uadd, usub, overflow, usize_modulus.
  replace (total + 16384 <? 2 ^ bits) with true by (symmetry; apply N.ltb_lt; lia).
  replace (1 <=? total + 16384) with true by (symmetry; apply N.leb_le; lia).
  replace (16384 + 4096 <? 2 ^ bits) with true by (symmetry; apply N.ltb_lt; lia).
  cbn - [N.div N.mul N.pow N.ltb].
  unfold umul, overflow, usize_modulus.
  assert (Hq : (total + 16384 - 1) / 16384 * 4 < 2 ^ bits).
  { assert (Hd : (total + 16384 - 1) / 16384 * 16384 <= total + 16384 - 1)
      by (rewrite N.mul_comm; apply N.Div0.mul_div_le).
    lia. }
  change (20479 / 4096) with 4.
  replace ((total + 16384 - 1) / 16384 * 4 <? 2 ^ bits) with true
    by (symmetry; apply N.ltb_lt; lia).
  eexists. split; [reflexivity|].
  cbn [piece_size chunk_size chunks_in_piece piece_count chunk_count cm_bitmap].
  repeat split; [f_equal; lia | lia].
Qed.

(** With the standard layout, a chunk lies in piece [c / 4], and [has_piece] holds exactly when all four chunks of that piece are present. *)
Theorem piece_of_chunk m bits (sm : StorageMap) (c : N) :
  chunk_size (chunks sm) = 4096 -> piece_size (chunks sm) = 16384 ->
  chunks_in_piece (chunks sm) = 4 ->
  c * 4096 + 16384 < 2 ^ bits ->
  exists pn, piece_from_chunk m bits sm c = Some pn /\ 4 * pn <= c < 4 * pn + 4 /\
    (has_piece m bits sm pn = Some true <->
     forall j, 4 * pn <= j < 4 * pn + 4 -> has_chunk sm j = true).
Proof.
  intros Hc Hp Hk Hb.
  exists (c / 4).
  pose proof (N.div_mod c 4 ltac:(lia)). pose proof (N.mod_lt c 4 ltac:(lia)).
  set (q := c / 4) in *. set (r := c mod 4) in *.
  unfold piece_from_chunk, has_piece. rewrite Hc, Hp, Hk.
  rewrite (umul_ok m bits) by lia.
  split; [f_equal; subst q; change 16384 with (4096 * 4);
          rewrite <- N.Div0.div_div, N.div_mul by lia; reflexivity|].
  split; [lia|].
  rewrite (umul_ok m bits) by lia. cbn [N.eqb Pos.eqb].
  replace (q * 16384 / 4096) with (4 * q)
    by (replace (q * 16384) with (4 * q * 4096) by lia; rewrite N.div_mul; lia).
  rewrite uadd_ok by lia.
  replace (N.to_nat (4 * q + 4 - 4 * q)) with 4%nat by lia.
  split.
  - intros Hpc j Hj. assert (Hf : forallb (has_chunk sm) (map N.of_nat (seq (N.to_nat (4 * q)) 4)) = true) by congruence. rewrite forallb_forall in Hf. apply Hf.
    apply in_map_iff. exists (N.to_nat j). split; [lia|]. apply in_seq. lia.
  - intros Hall. f_equal. apply forallb_forall. intros x Hx.
    apply in_map_iff in Hx as (k & <- & Hk'). apply in_seq in Hk'. apply Hall. lia.
Qed.

Section TreeFrame.
Context (D : Type) `{Digest D}.

Lemma nth_error_slice {A} (l : list A) (n k x : nat) :
  nth_error (firstn n (skipn k l)) x = if Nat.ltb x n then nth_error l (k + x) else None.
Proof.
  rewrite nth_error_firstn, nth_error_skipn. reflexivity.
Qed.

Lemma set_hash_spec (t t' : MerkleTree) (p : N) (h : list byte) :
  set_hash D t p h = Some t' ->
  length (mt_hashes t') = length (mt_hashes t) /\
  N.of_nat (length h) = output_size /\
  mt_leaf_count t' = mt_leaf_count t /\ mt_height t' = mt_height t /\
  bv_set (mt_bitmap t) p true = Some (mt_bitmap t') /\
  (p * output_size + output_size <= N.of_nat (length (mt_hashes t))) /\
  forall x, nth_error (mt_hashes t') x =
    if Nat.ltb x (N.to_nat (p * output_size)) then nth_error (mt_hashes t) x
    else if Nat.ltb x (N.to_nat (p * output_size + output_size))
    then nth_error h (x - N.to_nat (p * output_size))
    else nth_error (mt_hashes t) x.
Proof.
  unfold set_hash.
  destruct (N.of_nat (length (mt_hashes t)) <? p * output_size + output_size) eqn:E1; [discriminate|].
  destruct (N.of_nat (length h) =? output_size) eqn:E2; [|discriminate].
  cbn [negb]. destruct (bv_set (mt_bitmap t) p true) as [bm|] eqn:Hb; [|discriminate].
  intros Ht. injection Ht as <-. cbn [mt_hashes mt_leaf_count mt_height mt_bitmap].
  apply N.ltb_ge in E1. apply N.eqb_eq in E2.
  assert (Hf : length (firstn (N.to_nat (p * output_size)) (mt_hashes t)) = N.to_nat (p * output_size))
    by (rewrite length_firstn; lia).
  repeat split; auto.
  - rewrite !length_app, Hf, length_skipn. lia.
  - intros x. destruct (Nat.ltb_spec x (N.to_nat (p * output_size))) as [L1|L1].
    + rewrite nth_error_app1 by lia. rewrite nth_error_firstn.
      destruct (Nat.ltb_spec x (N.to_nat (p * output_size))); [reflexivity|lia].
    + rewrite nth_error_app2 by lia. rewrite Hf.
      destruct (Nat.ltb_spec x (N.to_nat (p * output_size + output_size))) as [L2|L2].
      * rewrite nth_error_app1 by lia. reflexivity.
      * rewrite nth_error_app2 by lia. rewrite nth_error_skipn. f_equal. lia.
Qed.

Lemma set_hash_get_hash (t t' : MerkleTree) (p j : N) (h : list byte) :
  set_hash D t p h = Some t' ->
  get_hash D t' j = if j =? p then Some h else get_hash D t j.
Proof.
  intros Hs. pose proof (set_hash_spec t t' p h Hs) as (Hl & Hh & _ & _ & _ & Hr & Hn).
  unfold get_hash. rewrite Hl.
  destruct (N.eqb_spec j p) as [->|Hne].
  - replace (N.of_nat (length (mt_hashes t)) <? p * output_size + output_size) with false
      by (symmetry; apply N.ltb_ge; lia).
    f_equal. apply nth_error_ext. intros x. rewrite nth_error_slice, Hn.
    destruct (Nat.ltb_spec x (N.to_nat output_size)) as [L|L].
    + destruct (Nat.ltb_spec (N.to_nat (p * output_size) + x) (N.to_nat (p * output_size))); [lia|].
      destruct (Nat.ltb_spec (N.to_nat (p * output_size) + x) (N.to_nat (p * output_size + output_size))); [|lia].
      f_equal. lia.
    + symmetry. apply nth_error_None. lia.
  - destruct (N.of_nat (length (mt_hashes t)) <? j * output_size + output_size); [reflexivity|].
    f_equal. apply nth_error_ext. intros x. rewrite !nth_error_slice.
    destruct (Nat.ltb_spec x (N.to_nat output_size)) as [L|L]; [|reflexivity].
    rewrite Hn.
    assert (Hjp : j < p \/ p < j) by lia.
    destruct Hjp as [Lt|Gt].
    + assert (j * output_size + output_size <= p * output_size) by nia.
      destruct (Nat.ltb_spec (N.to_nat (j * output_size) + x) (N.to_nat (p * output_size))); [reflexivity|lia].
    + assert (p * output_size + output_size <= j * output_size) by nia.
      destruct (Nat.ltb_spec (N.to_nat (j * output_size) + x) (N.to_nat (p * output_size))); [lia|].
      destruct (Nat.ltb_spec (N.to_nat (j * output_size) + x) (N.to_nat (p * output_size + output_size))); [lia|].
      reflexivity.
Qed.

Lemma build_down_loop_frame (f : nat) (t t' : MerkleTree) (il : IndexedLevel) (lo : N) :
  build_down_loop D f t il = Some t' ->
  lo <= il_end il -> il_start il <= il_index il ->
  mt_leaf_count t' = mt_leaf_count t /\
  (forall j, j < lo -> get_hash D t' j = get_hash D t j) /\
  (forall j, j < lo -> has t' j = has t j).
Proof.
  revert t il. induction f as [|f IH]; intros t il Hb Hlo Hsi; cbn [build_down_loop] in Hb.
  - injection Hb as <-. auto.
  - destruct (feed D t (siblings il) []) as [[input|]|]; [|injection Hb as <-; auto|discriminate].
    destruct (set_hash D t (parent il) (digest input)) as [t1|] eqn:Hs; [|discriminate].
    destruct (il_down il) as [il'|] eqn:Hd; [|discriminate].
    assert (Hpe : il_end il <= parent il) by (unfold parent; apply N.le_add_r).
    unfold il_down, level_down in Hd.
    destruct (il_end il <=? il_start il); [discriminate|].
    injection Hd as <-.
    destruct (IH t1 _ Hb) as (Hc & Hg & Hh); cbn [il_end il_start il_index];
      [pose proof (N.le_add_r (il_end il) (N.div2 (il_end il - il_start il + 1))); lia | exact Hpe |].
    pose proof (set_hash_spec t t1 _ _ Hs) as (_ & _ & Hc1 & _ & Hbm & _).
    apply bv_set_spec in Hbm as (_ & _ & Hbo).
    split; [congruence|split].
    + intros j Hj. rewrite Hg by exact Hj. rewrite (set_hash_get_hash t t1 _ j _ Hs).
      destruct (N.eqb_spec j (parent il)); [lia|reflexivity].
    + intros j Hj. rewrite Hh by exact Hj. unfold has. rewrite Hbo by lia. reflexivity.
Qed.

Lemma build_down_frame (t t' : MerkleTree) (i : N) :
  build_down D t i = Some t' ->
  mt_leaf_count t' = mt_leaf_count t /\
  (forall j, j < mt_leaf_count t -> get_hash D t' j = get_hash D t j) /\
  (forall j, j < mt_leaf_count t -> has t' j = has t j).
Proof.
  unfold build_down, il_new.
  destruct ((0 <=? i) && (i <? mt_leaf_count t) && negb (mt_leaf_count t <=? 0)) eqn:E; [|discriminate].
  intros Hb. apply (build_down_loop_frame _ _ _ _ (mt_leaf_count t) Hb); cbn; lia.
Qed.

(** A successful [MerkleTree::set] keeps the leaf count, marks the leaf present, makes [get] return the new hash, and leaves [get] of every other leaf unchanged. *)
Theorem set_get (t t' : MerkleTree) (i : N) (h : list byte) :
  set D t i h = Some (Ok t') ->
  mt_leaf_count t' = mt_leaf_count t /\ has t' i = true /\
  tree_get D t' i = Some (Ok h) /\
  forall j, j <> i -> tree_get D t' j = tree_get D t j.
Proof.
  unfold set. destruct (mt_leaf_count t <=? i) eqn:Hi; [discriminate|]. apply N.leb_gt in Hi.
  destruct (set_hash D t i h) as [t1|] eqn:Hs; [|discriminate].
  destruct (build_down D t1 i) as [t2|] eqn:Hb; [|discriminate].
  intros E. injection E as <-.
  pose proof (set_hash_spec t t1 i h Hs) as (_ & _ & Hc1 & _ & Hbm & _).
  destruct (build_down_frame t1 t2 i Hb) as (Hc2 & Hg & Hh).
  assert (Hg' : forall j, j < mt_leaf_count t -> get_hash D t2 j = if j =? i then Some h else get_hash D t j).
  { intros j Hj. rewrite Hg by lia. apply (set_hash_get_hash t t1 i j h Hs). }
  split; [congruence|]. split; [|split].
  - rewrite Hh by lia. apply bv_set_spec in Hbm as (_ & Hget & _).
    unfold has. rewrite Hget. reflexivity.
  - unfold tree_get. rewrite Hc2, Hc1. replace (mt_leaf_count t <=? i) with false by (symmetry; apply N.leb_gt; lia).
    rewrite (Hg' i Hi), N.eqb_refl. reflexivity.
  - intros j Hj. unfold tree_get. rewrite Hc2, Hc1.
    destruct (N.leb_spec (mt_leaf_count t) j); [reflexivity|].
    rewrite (Hg' j) by lia. destruct (N.eqb_spec j i); [lia|reflexivity].
Qed.

Lemma build_from_frame (leaves : list N) (t t' : MerkleTree) :
  build_from D t leaves = Some t' ->
  mt_leaf_count t' = mt_leaf_count t /\
  forall j, j < mt_leaf_count t -> get_hash D t' j = get_hash D t j.
Proof.
  revert t. induction leaves as [|i rest IH]; intros t Hb; cbn [build_from] in Hb.
  - injection Hb as <-. auto.
  - destruct (build_down D t i) as [t1|] eqn:Hd; [|discriminate].
    destruct (build_down_frame t t1 i Hd) as (Hc1 & Hg1 & _).
    destruct (IH t1 Hb) as [Hc Hg]. split; [congruence|].
    intros j Hj. rewrite Hg by lia. apply Hg1. exact Hj.
Qed.

Lemma flat_map_digest_length (blocks : list (list byte)) (n : nat) :
  (forall x, length (digest x) = n) ->
  length (flat_map digest blocks) = (length blocks * n)%nat.
Proof.
  intros Hd. induction blocks as [|b bs IH]; cbn [flat_map length]; [reflexivity|].
  rewrite length_app, Hd, IH. lia.
Qed.

Lemma skipn_flat_map_digest (blocks : list (list byte)) (n j : nat) :
  (forall x, length (digest x) = n) ->
  skipn (j * n) (flat_map digest blocks) = flat_map digest (skipn j blocks).
Proof.
  intros Hd. revert blocks. induction j as [|j IH]; intros blocks; [reflexivity|].
  destruct blocks as [|b bs]; [rewrite skipn_nil; reflexivity|].
  cbn [flat_map skipn]. rewrite skipn_app, Hd.
  replace (S j * n - n)%nat with (j * n)%nat by lia.
  rewrite skipn_all2 by (rewrite Hd; lia). apply IH.
Qed.

(** [MerkleTree::from] has one leaf per block, and the leaf [j] holds the digest of block [j]. *)
Theorem tree_from_leaves (blocks : list (list byte)) (t : MerkleTree) :
  (forall x, length (digest x) = N.to_nat output_size) -> 0 < output_size ->
  tree_from D blocks = Some t ->
  mt_leaf_count t = N.of_nat (length blocks) /\
  forall j, (j < length blocks)%nat ->
    tree_get D t (N.of_nat j) = Some (Ok (digest (nth j blocks []))).
Proof.
  intros Hd Hos. unfold tree_from.
  set (n := N.to_nat output_size).
  pose proof (flat_map_digest_length blocks n Hd) as Hfl.
  assert (HL : N.of_nat (length (flat_map digest blocks)) / output_size = N.of_nat (length blocks)).
  { rewrite Hfl, Nat2N.inj_mul. subst n. rewrite N2Nat.id. apply N.div_mul. lia. }
  rewrite HL.
  destruct (tree_size (N.of_nat (length blocks))) as [size height] eqn:Hts.
  pose proof (tree_size_leaves_height (N.of_nat (length blocks))) as [Hsz _].
  rewrite Hts in Hsz. cbn [fst] in Hsz.
  intros Hb. apply build_from_frame in Hb as [Hc Hg].
  cbn [mt_leaf_count] in Hc, Hg. split; [exact Hc|].
  intros j Hj. unfold tree_get. rewrite Hc.
  replace (N.of_nat (length blocks) <=? N.of_nat j) with false by (symmetry; apply N.leb_gt; lia).
  rewrite Hg by lia. unfold get_hash. cbn [mt_hashes].
  set (pad := repeat x00 (N.to_nat (size * output_size))).
  set (flat := flat_map digest blocks).
  assert (Hlen : length (firstn (N.to_nat (size * output_size)) (flat ++ pad)) = N.to_nat (size * output_size)).
  { rewrite length_firstn, length_app. subst pad. rewrite repeat_length. lia. }
  rewrite Hlen.
  assert (Hjs : N.of_nat j * output_size + output_size <= size * output_size) by nia.
  replace (N.of_nat (N.to_nat (size * output_size)) <? N.of_nat j * output_size + output_size)
    with false by (symmetry; apply N.ltb_ge; lia).
  f_equal. f_equal.
  rewrite skipn_firstn_comm, firstn_firstn.
  replace (Nat.min (N.to_nat output_size) (N.to_nat (size * output_size) - N.to_nat (N.of_nat j * output_size)))
    with n by (subst n; lia).
  replace (N.to_nat (N.of_nat j * output_size)) with (j * n)%nat by (subst n; lia).
  rewrite skipn_app.
  assert (Hjl : (j * n <= length flat)%nat) by (subst flat; rewrite Hfl; nia).
  subst flat. rewrite (skipn_flat_map_digest blocks n j Hd).
  rewrite firstn_app.
  destruct (skipn j blocks) as [|b bs] eqn:Hsk.
  - apply (f_equal (@length _)) in Hsk. rewrite length_skipn in Hsk. cbn in Hsk. lia.
  - cbn [flat_map]. rewrite firstn_app, Hd. fold n.
    rewrite Nat.sub_diag, firstn_O, app_nil_r.
    rewrite firstn_all2 by (rewrite Hd; lia).
    assert (nth j blocks [] = b).
    { rewrite <- (firstn_skipn j blocks), Hsk, app_nth2; rewrite length_firstn; [|lia].
      replace (j - Nat.min j (length blocks))%nat with 0%nat by lia. reflexivity. }
    subst b. 
    rewrite length_app, Hd. fold n.
    replace (n - (n + length (flat_map digest bs)))%nat with 0%nat by lia.
    rewrite firstn_O, app_nil_r. reflexivity.
Qed.

End TreeFrame.

(** [Proof::validate] succeeds exactly when the leaf indexes and the partial flags agree, full proofs have paths of the same length, and the paths agree on their common prefix; the leaf hash is not compared. *)
Theorem validate_ok_iff (p q : Proof) :
  validate p q = Ok tt <->
  leaf_index p = leaf_index q /\ partial p = partial q /\
  (partial p = false -> length (path p) = length (path q)) /\
  let e := Nat.min (length (path p)) (length (path q)) in
  firstn e (path p) = firstn e (path q).
Proof.
  unfold validate. cbv zeta.
  destruct (N.eqb_spec (leaf_index p) (leaf_index q)) as [Ei|Ei]; cbn [negb];
    [|split; [discriminate|tauto]].
  destruct (partial p) eqn:Pp, (partial q) eqn:Pq; cbn [negb andb];
    try (destruct (Nat.eqb_spec (length (path p)) (length (path q))) as [El|El]); cbn [negb];
    try (destruct (list_eqb entry_eqb _ _) eqn:Eq; cbn [negb]);
    try (apply list_eqb_iff_entry in Eq);
    cbn [Bool.eqb negb];
    split; intros Hx; try discriminate; try (destruct Hx as (? & Hb & ? & Hf)); try discriminate;
    repeat split; auto; try congruence.
  all: try (exfalso; apply Eq; exact Hf).
  all: try (rewrite (proj2 (list_eqb_iff_entry _ _) Hf) in Eq; discriminate).
  all: try (exfalso; apply El; auto).
Qed.

Section Proofs.
Context (D : Type) `{Digest D}.

(** [MerkleTree::prove] fails with [InvalidLength] when the sibling of the leaf has no hash yet. *)
Theorem prove_missing_sibling (t : MerkleTree) (i j : N) :
  i < mt_leaf_count t ->
  sibling {| il_index := i; il_start := 0; il_end := mt_leaf_count t |} = Some j ->
  has t j = false ->
  prove D t i = Some (Err InvalidLength).
Proof.
  intros Hi Hs Hh. unfold prove, il_new.
  replace ((0 <=? i) && (i <? mt_leaf_count t) && negb (mt_leaf_count t <=? 0)) with true
    by (symmetry; apply andb_true_intro; split;
        [apply andb_true_intro; split; [apply N.leb_le | apply N.ltb_lt]; lia
        | apply negb_true_iff, N.leb_gt; lia]).
  cbn [Datatypes.negb andb].
  destruct (N.to_nat (mt_height t)) as [|f]; cbn [prove_loop].
  - reflexivity.
  - rewrite Hs, Hh. reflexivity.
Qed.

(** A successful [MerkleTree::verify] implies that the leaf is in range, that the proof path has at least two entries, that its leaf hash is the stored one, and that its path agrees with the proof the tree itself produces (equal when the tree is built). *)
Theorem verify_ok_sound (t : MerkleTree) (pr : Proof) :
  verify D t pr = Some (Ok tt) ->
  leaf_index pr < mt_leaf_count t /\ (2 <= length (path pr))%nat /\
  get_hash D t (leaf_index pr) = Some (leaf_hash pr) /\
  exists p, prove D t (leaf_index pr) = Some (Ok p) /\
    partial pr = negb (built t) /\
    firstn (length (path p)) (path pr) = firstn (length (path pr)) (path p) /\
    (built t = true -> path pr = path p).
Proof.
  unfold verify.
  destruct (mt_leaf_count t <=? leaf_index pr) eqn:E1; [discriminate|].
  apply N.leb_gt in E1.
  destruct (Nat.ltb (length (path pr)) 2) eqn:E2; [discriminate|].
  apply Nat.ltb_ge in E2.
  destruct (get_hash D t (leaf_index pr)) as [h|] eqn:E3; [|discriminate].
  destruct (bytes_eqb h (leaf_hash pr)) eqn:E4; [|discriminate].
  apply bytes_eqb_sound in E4. subst h. cbn [negb].
  destruct (prove D t (leaf_index pr)) as [[p|e]|] eqn:E5; try discriminate.
  intros Hv. injection Hv as Hv.
  destruct (prove_fields D t (leaf_index pr) p E5) as [Hidx Hpp].
  unfold validate in Hv.
  destruct (negb (leaf_index p =? leaf_index pr)); [discriminate|].
  destruct (negb (partial p) && negb (partial pr)
            && negb (Nat.eqb (length (path p)) (length (path pr)))) eqn:E6; [discriminate|].
  set (e := Nat.min (length (path p)) (length (path pr))) in Hv.
  destruct (list_eqb entry_eqb (firstn e (path p)) (firstn e (path pr))) eqn:E7;
    [|discriminate].
  apply list_eqb_sound in E7; [|exact entry_eqb_sound].
  destruct (Bool.eqb (partial p) (partial pr)) eqn:E8; [|discriminate].
  apply Bool.eqb_prop in E8.
  split; [exact E1|]. split; [exact E2|]. split; [reflexivity|].
  exists p. split; [reflexivity|]. split; [rewrite <- E8; exact Hpp|].
  assert (Hpre : firstn (length (path p)) (path pr) = firstn (length (path pr)) (path p)).
  { destruct (Nat.le_ge_cases (length (path p)) (length (path pr))) as [L|L].
    - rewrite (firstn_all2 (n := length (path pr))) by lia.
      subst e. rewrite Nat.min_l in E7 by lia. rewrite firstn_all in E7. symmetry. exact E7.
    - rewrite (firstn_all2 (n := length (path p))) by lia.
      subst e. rewrite Nat.min_r in E7 by lia. rewrite firstn_all in E7. symmetry. exact E7. }
  split; [exact Hpre|].
  intros Hb. rewrite <- E8, Hpp, Hb in E6. cbn in E6.
  apply negb_false_iff, Nat.eqb_eq in E6.
  rewrite E6, firstn_all in Hpre. rewrite <- E6, firstn_all in Hpre. exact Hpre.
Qed.
(** On a well-formed built tree, [MerkleTree::prove] succeeds for every leaf with a full proof whose path has [height] entries and whose leaf hash is the stored one. *)
Theorem prove_built_shape (t : MerkleTree) (i : N) :
  tree_size (mt_leaf_count t) = (N.of_nat (length (mt_bitmap t)), mt_height t) ->
  length (mt_hashes t) = (length (mt_bitmap t) * N.to_nat output_size)%nat ->
  built t = true ->
  i < mt_leaf_count t ->
  exists p, prove D t i = Some (Ok p) /\ leaf_index p = i /\
    get_hash D t i = Some (leaf_hash p) /\
    length (path p) = N.to_nat (mt_height t) /\ partial p = false.
Proof.
  intros Hts Hhs Hb Hi.
  set (nodes := N.of_nat (length (mt_bitmap t))).
  assert (Hbm : length (mt_bitmap t) = N.to_nat nodes) by (subst nodes; lia).
  pose proof (tree_size_leaves_height (mt_leaf_count t)) as [HL Hh].
  rewrite Hts in HL, Hh. cbn [fst snd] in HL, Hh.
  assert (Hw : walk_ok nodes {| il_index := i; il_start := 0; il_end := mt_leaf_count t |}).
  { split; cbn [il_index il_start il_end]; [lia|].
    destruct (N.eq_dec (mt_leaf_count t) 1) as [E|E]; [left; lia|].
    right. exists (S (N.to_nat (mt_leaf_count t))), 0. split; [lia|].
    unfold tree_size in Hts.
    destruct (tree_size_loop (S (N.to_nat (mt_leaf_count t))) (mt_leaf_count t) 0 0)
      as [sum h] eqn:E2.
    rewrite N.sub_0_r, E2. cbn [fst].
    destruct (h =? 1); injection Hts as Hs _; subst nodes; lia. }
  destruct (prove_loop_full D t nodes Hb Hbm Hhs (N.to_nat (mt_height t)) _ [] Hw)
    as (pth & Hp & Hl).
  assert (Hg : get_hash D t i <> None)
    by (apply (get_hash_in_range D t nodes Hbm Hhs); lia).
  destruct (get_hash D t i) as [lh|] eqn:Hgi; [|congruence].
  exists {| leaf_index := i; leaf_hash := lh; path := pth; partial := negb (built t) |}.
  split.
  - unfold prove, il_new.
    replace ((0 <=? i) && (i <? mt_leaf_count t) && negb (mt_leaf_count t <=? 0)) with true
      by (symmetry; apply andb_true_intro; split;
          [apply andb_true_intro; split; [apply N.leb_le | apply N.ltb_lt]; lia
          | apply negb_true_iff, N.leb_gt; lia]).
    cbn [negb andb]. rewrite Hp.
    replace (Nat.ltb (length pth) 2) with false by (symmetry; apply Nat.ltb_ge; lia).
    rewrite Hgi. reflexivity.
  - cbn [leaf_index leaf_hash path partial]. rewrite Hb. repeat split. exact Hl.
Qed.

End Proofs.

Lemma view_prefix (m : mode) (bits : N) (st : GenericStorage) (S0 len : N) (rest : list N) :
  res_sizes st = S0 :: rest -> 0 < len <= S0 -> S0 < 2 ^ bits ->
  view m bits st 0 len = Some (Ok [(0%nat, {| shard_start := 0; shard_end := len |})]).
Proof.
  intros Hr Hl Hs. unfold view. rewrite Hr.
  rewrite uadd_ok by lia. cbv beta iota. rewrite N.add_0_l.
  cbn [uv_add_all]. unfold uv_add, uv_new, uv_size. cbn [uv_offset uv_start uv_end uv_consumed uv_view].
  step_usize.
  replace (len <=? 0) with false by (symmetry; apply N.leb_gt; lia).
  replace ((S0 =? 0) || (0 + S0 <? 0)) with false by (symmetry; apply orb_false_iff; split; [apply N.eqb_neq | apply N.ltb_ge]; lia).
  step_usize.
  rewrite N.min_r by lia. rewrite !N.sub_0_r, !N.add_0_l. step_usize.
  rewrite N.eqb_refl. cbn [negb app]. unfold uv_build, uv_size. cbn [uv_start uv_end uv_consumed uv_view].
  step_usize. rewrite N.sub_0_r, N.eqb_refl. reflexivity.
Qed.

Lemma update_skip (r' : Resource) (l : list (string * Resource)) (b : nat) :
  map (fun '(j, kr) => if Nat.eqb 0 j then (fst kr, r') else kr)
      (combine (seq (S b) (length l)) l) = l.
Proof.
  revert b. induction l as [|x xs IH]; intros b; [reflexivity|].
  cbn [length seq combine map Nat.eqb]. f_equal. apply IH.
Qed.

Lemma update_res_first (st : GenericStorage) (k : string) (r r' : Resource) rest :
  resources st = (k, r) :: rest ->
  resources (update_res st 0 r') = (k, r') :: rest.
Proof.
  intros Hr. unfold update_res. rewrite Hr. cbn [resources length seq combine map Nat.eqb fst].
  f_equal. apply update_skip.
Qed.

(** Writing at offset 0 no more bytes than the first resource holds succeeds, reading them back returns the written bytes, and the sizes are unchanged. *)
Theorem write_read_prefix (m : mode) (bits : N) (st : GenericStorage) (k : string) (r : Resource)
    rest (data : list byte) :
  resources st = (k, r) :: rest ->
  0 < N.of_nat (length data) <= res_size r -> res_size r < 2 ^ bits ->
  exists st', write m bits st 0 data = (Some (Ok (N.of_nat (length data))), st') /\
    read m bits st' 0 (repeat x00 (length data)) = Some (Ok (N.of_nat (length data), data)) /\
    res_sizes st' = res_sizes st /\ total_size st' = total_size st.
Proof.
  intros Hr Hl Hs.
  set (len := N.of_nat (length data)) in *.
  assert (Hsz : res_sizes st = res_size r :: map (fun kr => res_size (snd kr)) rest)
    by (unfold res_sizes; rewrite Hr; reflexivity).
  set (r' := {| location := location r; res_size := res_size r;
                contents := cursor_write (contents r) 0 data |}).
  exists (update_res st 0 r').
  assert (Hr' := update_res_first st k r r' rest Hr).
  assert (Hsz' : res_sizes (update_res st 0 r') = res_size r :: map (fun kr => res_size (snd kr)) rest)
    by (unfold res_sizes; rewrite Hr'; reflexivity).
  split; [|split; [|split]].
  - unfold write. fold len. rewrite (view_prefix m bits st (res_size r) len _ Hsz) by lia.
    cbn [write_shards]. unfold lookup_res. rewrite Hr. cbn [nth_error option_map snd].
    unfold shard_size. cbn [shard_start shard_end].
    replace (len <? 0) with false by (symmetry; apply N.ltb_ge; lia).
    step_usize. rewrite ?N.add_0_l, ?N.sub_0_r.
    replace (N.of_nat (length data) <? len) with false by (symmetry; apply N.ltb_ge; lia).
    change (N.to_nat 0) with 0%nat. rewrite skipn_O. subst len. rewrite Nat2N.id, firstn_all.
    step_usize. reflexivity.
  - unfold read. rewrite repeat_length. fold len.
    rewrite (view_prefix m bits _ (res_size r) len _ Hsz') by lia.
    cbn [read_shards]. unfold lookup_res. rewrite Hr'. cbn [nth_error option_map snd].
    unfold shard_size. cbn [shard_start shard_end].
    replace (len <? 0) with false by (symmetry; apply N.ltb_ge; lia).
    step_usize. rewrite repeat_length. rewrite ?N.sub_0_r, ?N.add_0_l.
    replace (N.of_nat (length data) <? len) with false by (symmetry; apply N.ltb_ge; lia).
    assert (Hcw : cursor_write (contents r) 0 data = data ++ skipn (length data) (contents r)).
    { unfold cursor_write. cbn [N.to_nat Nat.sub repeat firstn app]. rewrite app_nil_r. reflexivity. }
    unfold cursor_read. cbn [r' contents]. rewrite Hcw. change (N.to_nat 0) with 0%nat. rewrite skipn_O.
    subst len. rewrite Nat2N.id.
    rewrite firstn_app, firstn_all, Nat.sub_diag, firstn_O, app_nil_r.
    step_usize. unfold splice. cbn [N.to_nat firstn app].
    rewrite skipn_all2 by (rewrite repeat_length; lia). rewrite app_nil_r. reflexivity.
  - rewrite Hsz, Hsz'. reflexivity.
  - reflexivity.
Qed.

Lemma uv_add_all_past_end m bits (v : UniformView) (p : nat) (rest : list N) :
  uv_end v <= uv_offset v ->
  match uv_add_all m bits v p rest with
  | Some v' => uv_start v' = uv_start v /\ uv_end v' = uv_end v /\ uv_consumed v' = uv_consumed v
  | None => True
  end.
Proof.
  intros He. destruct rest as [|s rest]; cbn [uv_add_all]; [auto|].
  unfold uv_add. destruct (uadd m bits (uv_offset v) s) as [o|]; [|exact I].
  cbv zeta. cbn [uv_end]. replace (uv_end v <=? uv_offset v) with true by (symmetry; apply N.leb_le; exact He).
  cbn. auto.
Qed.

Lemma view_interior_not_ok (m : mode) (bits : N) (st : GenericStorage) (S0 start len : N)
    (rest : list N) :
  res_sizes st = S0 :: rest -> 0 < start -> start + len <= S0 -> S0 < 2 ^ bits ->
  match view m bits st start len with Some (Ok _) => False | _ => True end.
Proof.
  intros Hr Hst Hl Hs. unfold view. rewrite Hr.
  rewrite uadd_ok by lia. cbv beta iota.
  cbn [uv_add_all]. unfold uv_add, uv_new, uv_size. cbn [uv_offset uv_start uv_end uv_consumed uv_view].
  rewrite uadd_ok by lia. cbv beta iota zeta. cbn [uv_offset uv_start uv_end uv_consumed uv_view].
  replace (start + len <=? 0) with false by (symmetry; apply N.leb_gt; lia).
  replace ((S0 =? 0) || (0 + S0 <? start)) with false
    by (symmetry; apply orb_false_iff; split; [apply N.eqb_neq | apply N.ltb_ge]; lia).
  rewrite uadd_ok by lia. rewrite N.add_0_r.
  rewrite usub_ok by lia. rewrite N.sub_0_r.
  rewrite usub_ok by lia. replace (start + len - start) with len by lia.
  rewrite usub_ok by lia. rewrite N.sub_0_r.
  rewrite N.min_r by lia.
  assert (Hc : match usub m bits len start with
               | Some c => c < 2 ^ bits /\ c <> len
               | None => True end).
  { unfold usub. destruct (N.leb_spec start len); [lia|].
    destruct m; [exact I|]. unfold usize_modulus. lia. }
  destruct (usub m bits len start) as [c|]; [|exact I].
  destruct (uadd m bits start c) as [e|]; [|exact I].
  rewrite uadd_ok by lia. rewrite N.add_0_l.
  replace (c =? len) with false by (symmetry; apply N.eqb_neq; lia). cbn [negb].
  match goal with |- context [uv_add_all m bits ?v 1 rest] =>
    pose proof (uv_add_all_past_end m bits v 1 rest) as P; cbn [uv_end uv_offset uv_start uv_consumed] in P;
    specialize (P ltac:(lia));
    destruct (uv_add_all m bits v 1 rest) as [v'|]; [|exact I] end.
  destruct P as (P1 & P2 & P3). unfold uv_build, uv_size. rewrite P1, P2, P3.
  rewrite usub_ok by lia. replace (start + len - start) with len by lia.
  replace (c =? len) with false by (symmetry; apply N.eqb_neq; lia). exact I.
Qed.

(** A view, read or write that starts strictly inside the first resource and ends inside it never succeeds. *)
Theorem interior_range_fails (m : mode) (bits : N) (st : GenericStorage) (S0 start len : N)
    (rest : list N) :
  res_sizes st = S0 :: rest -> 0 < start -> start + len <= S0 -> S0 < 2 ^ bits ->
  match view m bits st start len with Some (Ok _) => False | _ => True end /\
  (forall into, N.of_nat (length into) = len ->
     match read m bits st start into with Some (Ok _) => False | _ => True end) /\
  (forall from, N.of_nat (length from) = len ->
     match fst (write m bits st start from) with Some (Ok _) => False | _ => True end).
Proof.
  intros Hr Hst Hl Hs.
  pose proof (view_interior_not_ok m bits st S0 start len rest Hr Hst Hl Hs) as V.
  split; [exact V|split].
  - intros into Hi. unfold read. rewrite Hi.
    destruct (view m bits st start len) as [[vw|e]|]; [destruct V|exact I|exact I].
  - intros from Hf. unfold write. rewrite Hf.
    destruct (view m bits st start len) as [[vw|e]|]; [destruct V|exact I|exact I].
Qed.

Lemma im_insert_fresh (R : list (string * Resource)) (k : string) (v : Resource) :
  ~ In k (map fst R) -> im_insert R k v = R ++ [(k, v)].
Proof.
  induction R as [|[k' v'] R IH]; intros Hn; [reflexivity|].
  cbn [im_insert map fst In] in *.
  destruct (String.eqb_spec k k') as [->|Hne]; [tauto|].
  rewrite IH by tauto. reflexivity.
Qed.

Lemma allocated_size_aligned (block size : N) :
  0 < block -> size mod block = 0 -> allocated_size block size = size.
Proof.
  intros Hb Hm. pose proof (N.div_mod size block ltac:(lia)) as E.
  rewrite Hm, N.add_0_r, N.mul_comm in E. rewrite E at 1 2.
  apply allocated_size_mul. exact Hb.
Qed.

Lemma allocated_size_misaligned (block size : N) :
  0 < block -> size mod block <> 0 -> size < allocated_size block size.
Proof.
  intros Hb Hm. pose proof (N.div_mod size block ltac:(lia)) as E.
  pose proof (N.mod_lt size block ltac:(lia)) as Hlt.
  unfold allocated_size.
  set (q := size / block) in *. set (r := size mod block) in *.
  replace (size + block - 1) with ((r + block - 1) + q * block) by lia.
  rewrite N.div_add by lia.
  replace ((r + block - 1) / block) with 1.
  - nia.
  - apply (N.div_unique _ _ _ (r - 1)); lia.
Qed.

Lemma storage_new_loop_fresh m bits (st : GenericStorage) (fs : Fs) (items : list (string * N)) :
  0 < fs_block fs ->
  NoDup (map fst items) ->
  (forall l, In l (map fst items) -> fs_lookup (fs_files fs) l = None) ->
  (forall l s, In (l, s) items -> 0 < s /\ s mod fs_block fs = 0) ->
  (forall l, In l (map fst (resources st)) -> ~ In l (map fst items)) ->
  total_size st + fold_right N.add 0 (map snd items) < 2 ^ bits ->
  exists fs', storage_new_loop m bits st fs items =
    Some (Ok ({| st_name := st_name st;
                 resources := resources st ++ map zero_resource items;
                 total_size := total_size st + fold_right N.add 0 (map snd items) |}, fs')).
Proof.
  revert st fs. induction items as [|[l s] items IH]; intros st fs Hb Hnd Hfs Hal Hk Hsum.
  - exists fs. cbn. rewrite app_nil_r, N.add_0_r. destruct st; reflexivity.
  - cbn [map fst snd fold_right] in *. inversion Hnd as [|? ? Hl Hnd']; subst.
    destruct (Hal l s (or_introl eq_refl)) as [Hs0 Hsm].
    cbn [storage_new_loop]. rewrite uadd_ok by lia. cbv beta iota zeta.
    unfold storage_add, res_exists. rewrite (Hfs l (or_introl eq_refl)).
    unfold res_create. replace (s =? 0) with false by (symmetry; apply N.eqb_neq; lia).
    cbn [f_allocated f_data res_size resources total_size st_name].
    rewrite (allocated_size_aligned _ _ Hb Hsm), N.eqb_refl. cbn [negb].
    rewrite im_insert_fresh by (intros H; exact (Hk l H (or_introl eq_refl))).
    edestruct (IH {| st_name := st_name st; resources := resources st ++ [zero_resource (l, s)];
                     total_size := total_size st + s |}
                  {| fs_block := fs_block fs;
                     fs_files := (l, {| f_data := repeat x00 (N.to_nat s);
                                        f_allocated := s |})
                                 :: fs_files fs |})
      as [fs' Hfs']; cbn [st_name resources total_size fs_block fs_files] in *.
    + exact Hb.
    + exact Hnd'.
    + intros l' Hl'. cbn [fs_lookup]. destruct (String.eqb_spec l' l) as [->|]; [contradiction|].
      apply Hfs. right. exact Hl'.
    + intros l' s' Hin. apply (Hal l' s'). right. exact Hin.
    + intros l' Hin. rewrite map_app, in_app_iff in Hin. destruct Hin as [Hin|[<-|[]]]; [|exact Hl].
      intros Hi. exact (Hk l' Hin (or_intror Hi)).
    + lia.
    + exists fs'. cbn [zero_resource] in Hfs'.
      rewrite Hfs'. rewrite <- app_assoc, N.add_assoc. reflexivity.
Qed.

(** [GenericStorage::new] on a file system of [fs_block]-byte blocks, over
    distinct locations absent from it, each with a size that is a positive
    multiple of the block size, and with a total size that fits, succeeds
    with one zero-filled resource per item, in order, and the sum of the
    sizes as total. *)
Theorem storage_new_fresh m bits (name : string) (items : list (string * N)) (fs : Fs) :
  0 < fs_block fs ->
  NoDup (map fst items) ->
  (forall l, In l (map fst items) -> fs_lookup (fs_files fs) l = None) ->
  (forall l s, In (l, s) items -> 0 < s /\ s mod fs_block fs = 0) ->
  fold_right N.add 0 (map snd items) < 2 ^ bits ->
  exists fs', storage_new m bits name items fs =
    Some (Ok ({| st_name := name; resources := map zero_resource items;
                 total_size := fold_right N.add 0 (map snd items) |}, fs')).
Proof.
  intros Hb Hnd Hfs Hal Hs. unfold storage_new.
  destruct (storage_new_loop_fresh m bits {| st_name := name; resources := []; total_size := 0 |}
              fs items Hb Hnd Hfs Hal) as [fs' H];
    [intros l []|exact Hs|].
  exists fs'. exact H.
Qed.

(** On a file system of [fs_block]-byte blocks, [GenericStorage::new] whose
    first item is a location absent from it with a size that is not a
    multiple of the block size fails with [SizeMismatch(allocated, size)]:
    the created file reports its allocated size, the size rounded up to
    whole blocks, which is larger. *)
Theorem storage_new_misaligned m bits (name l : string) (s : N) (rest : list (string * N)) (fs : Fs) :
  0 < fs_block fs -> fs_lookup (fs_files fs) l = None -> s mod fs_block fs <> 0 -> s < 2 ^ bits ->
  storage_new m bits name ((l, s) :: rest) fs
    = Some (Err (SizeMismatch (allocated_size (fs_block fs) s) s)) /\
  s < allocated_size (fs_block fs) s.
Proof.
  intros Hb Hl Hm Hs.
  pose proof (allocated_size_misaligned _ _ Hb Hm) as Ha.
  split; [|exact Ha].
  assert (Hs0 : s <> 0) by (intros ->; apply Hm; apply N.Div0.mod_0_l).
  unfold storage_new. cbn [storage_new_loop total_size]. rewrite uadd_ok by lia. cbv beta iota zeta.
  unfold storage_add, res_exists. rewrite Hl.
  unfold res_create. replace (s =? 0) with false by (symmetry; apply N.eqb_neq; exact Hs0).
  cbn [f_allocated res_size].
  replace (allocated_size (fs_block fs) s =? s) with false by (symmetry; apply N.eqb_neq; lia).
  reflexivity.
Qed.

(** A successful [StorageMap::write_chunk] was on a missing chunk, marks it present, keeps every other chunk bit and leaves the layout unchanged. *)
Theorem write_chunk_ok (m : mode) (bits : N) (sm sm' : StorageMap) (c : N) (data : list byte) :
  write_chunk m bits sm c data = Some (Ok tt, sm') ->
  has_chunk sm c = false /\ has_chunk sm' c = true /\
  (forall j, j <> c -> has_chunk sm' j = has_chunk sm j) /\
  length (cm_bitmap (chunks sm')) = length (cm_bitmap (chunks sm)) /\
  chunk_size (chunks sm') = chunk_size (chunks sm) /\
  chunk_count (chunks sm') = chunk_count (chunks sm) /\
  piece_size (chunks sm') = piece_size (chunks sm) /\
  piece_count (chunks sm') = piece_count (chunks sm) /\
  chunks_in_piece (chunks sm') = chunks_in_piece (chunks sm).
Proof.
  unfold write_chunk. intros H.
  destruct (has_chunk sm c) eqn:Hc; [discriminate|].
  destruct (umul m bits c (chunk_size (chunks sm))) as [off|]; [|discriminate].
  destruct (write m bits (storage sm) off data) as [[[w|e]|] st'];
    cbn [with_storage chunks cm_bitmap] in H; try discriminate.
  destruct (bv_set (cm_bitmap (chunks sm)) c true) as [bm|] eqn:Hbm; [|discriminate].
  apply bv_set_spec in Hbm as (Hl & Hg & Ho).
  set (sm2 := with_bitmap (with_storage sm st') bm) in H.
  assert (Hch : chunks sm' = chunks sm2).
  { destruct (piece_from_chunk m bits sm2 c) as [pn|]; [|discriminate].
    destruct (has_piece m bits sm2 pn) as [[|]|]; [|congruence|discriminate].
    unfold update_tree in H.
    destruct (umul m bits pn (piece_size (chunks sm2))); [|discriminate].
    destruct (read_storage m bits sm2 _ _) as [[buf|e]|]; [|discriminate|discriminate].
    destruct (set Sha512 (tree sm2) pn buf) as [[t|e]|]; [|discriminate|discriminate].
    injection H as <-. reflexivity. }
  unfold has_chunk. rewrite Hch. cbn [sm2 with_bitmap with_storage chunks cm_bitmap
    chunk_size chunk_count piece_size piece_count chunks_in_piece].
  rewrite Hg. repeat split; try assumption.
  intros j Hj. rewrite Ho by exact Hj. reflexivity.
Qed.

Lemma splice_length (buf src : list byte) (start : N) :
  src = [] \/ (N.to_nat start + length src <= length buf)%nat ->
  length (splice buf start src) = length buf.
Proof.
  unfold splice. intros [->|Hle].
  - cbn [length app]. rewrite Nat.add_0_r, firstn_skipn. reflexivity.
  - rewrite !length_app, length_firstn, length_skipn. lia.
Qed.

Lemma read_shards_length (st : GenericStorage) vw (start : N) (into out : list byte) (n : N) :
  forall m bits, read_shards m bits st vw start into = Some (n, out) -> length out = length into.
Proof.
  intros m bits. revert start into. induction vw as [|[i sh] rest IH]; intros start into H; cbn in H.
  - congruence.
  - destruct (lookup_res st i) as [r|]; [|discriminate].
    destruct (uadd m bits start (shard_size sh)) as [e|]; [|discriminate].
    destruct (N.of_nat (length into) <? e) eqn:Hlt; [discriminate|].
    apply N.ltb_ge in Hlt.
    destruct (uadd m bits start _) as [s'|]; [|discriminate].
    rewrite (IH _ _ H). apply splice_length.
    unfold cursor_read.
    destruct (firstn (N.to_nat (e - start)) (skipn (N.to_nat (shard_start sh)) (contents r)))
      as [|b l] eqn:Hg; [left; reflexivity|right].
    assert (Hl : (length (b :: l) <= N.to_nat (e - start))%nat)
      by (rewrite <- Hg, length_firstn; lia).
    cbn [length] in Hl |- *. lia.
Qed.

Lemma read_length m bits (st : GenericStorage) (offset : N) (into out : list byte) (n : N) :
  read m bits st offset into = Some (Ok (n, out)) -> length out = length into.
Proof.
  unfold read. destruct (view m bits st offset _) as [[vw|e]|]; try discriminate.
  destruct (read_shards m bits st vw 0 into) as [[n' out']|] eqn:Hr; [|discriminate].
  intros H. injection H as <- <-. exact (read_shards_length st vw 0 into out' n' m bits Hr).
Qed.

Lemma read_storage_length m bits (sm : StorageMap) (offset size : N) (buf : list byte) :
  read_storage m bits sm offset size = Some (Ok buf) -> length buf = N.to_nat size.
Proof.
  unfold read_storage.
  destruct (read m bits (storage sm) offset (repeat x00 (N.to_nat size))) as [[[n out]|e]|] eqn:Hr;
    try discriminate.
  intros H. injection H as <-. rewrite (read_length _ _ _ _ _ _ _ Hr), repeat_length. reflexivity.
Qed.

Lemma set_piece_panics m bits (sm : StorageMap) (pn off : N) (buf : list byte) :
  piece_size (chunks sm) <> 64 ->
  read_storage m bits sm off (piece_size (chunks sm)) = Some (Ok buf) ->
  pn < mt_leaf_count (tree sm) -> set Sha512 (tree sm) pn buf = None.
Proof.
  intros Hps Hr Hlt. apply read_storage_length in Hr.
  unfold set. replace (mt_leaf_count (tree sm) <=? pn) with false by (symmetry; apply N.leb_gt; lia).
  unfold set_hash. destruct (N.of_nat (length (mt_hashes (tree sm))) <? _); [reflexivity|].
  rewrite Hr. replace (N.of_nat (N.to_nat (piece_size (chunks sm))) =? output_size) with false.
  reflexivity. symmetry. apply N.eqb_neq. cbn. lia.
Qed.

Lemma update_tree_not_ok m bits (sm : StorageMap) (pn : N) :
  piece_size (chunks sm) <> 64 ->
  match update_tree m bits sm pn with
  | Some (Ok _, _) => False
  | Some (Err _, sm') => sm' = sm
  | None => True
  end.
Proof.
  intros Hps. unfold update_tree.
  destruct (umul m bits pn (piece_size (chunks sm))) as [off|] eqn:Hu; [|exact I].
  destruct (read_storage m bits sm off (piece_size (chunks sm))) as [[buf|e]|] eqn:Hr;
    [|reflexivity|exact I].
  destruct (N.lt_ge_cases pn (mt_leaf_count (tree sm))) as [Hlt|Hge].
  - rewrite (set_piece_panics m bits sm pn off buf Hps Hr Hlt). exact I.
  - unfold set. replace (mt_leaf_count (tree sm) <=? pn) with true by (symmetry; apply N.leb_le; lia).
    reflexivity.
Qed.

(** When the piece size differs from the 64-byte hash size, [update_tree] never succeeds: an error leaves the map as it was, and a piece that is in range and readable makes it panic. *)
Theorem update_tree_piece_not_hash m bits (sm : StorageMap) (pn : N) :
  piece_size (chunks sm) <> 64 ->
  match update_tree m bits sm pn with
  | Some (Ok _, _) => False
  | Some (Err _, sm') => sm' = sm
  | None => True
  end /\
  (pn < mt_leaf_count (tree sm) ->
   forall off buf, umul m bits pn (piece_size (chunks sm)) = Some off ->
   read_storage m bits sm off (piece_size (chunks sm)) = Some (Ok buf) ->
   update_tree m bits sm pn = None).
Proof.
  intros Hps. split; [exact (update_tree_not_ok m bits sm pn Hps)|].
  intros Hlt off buf Hu Hr. unfold update_tree.
  rewrite Hu, Hr, (set_piece_panics m bits sm pn off buf Hps Hr Hlt). reflexivity.
Qed.

(** When the piece size differs from the hash size, a successful [write_chunk] leaves the piece of the written chunk incomplete. *)
Theorem write_chunk_ok_piece_incomplete m bits (sm sm' : StorageMap) (c : N) (data : list byte) :
  piece_size (chunks sm) <> 64 ->
  write_chunk m bits sm c data = Some (Ok tt, sm') ->
  exists pn, piece_from_chunk m bits sm' c = Some pn /\ has_piece m bits sm' pn = Some false.
Proof.
  intros Hps. unfold write_chunk. intros H.
  destruct (has_chunk sm c); [discriminate|].
  destruct (umul m bits c (chunk_size (chunks sm))) as [off|]; [|discriminate].
  destruct (write m bits (storage sm) off data) as [[[w|e]|] st'];
    cbn [with_storage chunks cm_bitmap] in H; try discriminate.
  destruct (bv_set (cm_bitmap (chunks sm)) c true) as [bm|]; [|discriminate].
  set (sm2 := with_bitmap (with_storage sm st') bm) in H.
  destruct (piece_from_chunk m bits sm2 c) as [pn|] eqn:Hp; [|discriminate].
  destruct (has_piece m bits sm2 pn) as [[|]|] eqn:Hh; [|injection H as <-|discriminate].
  - pose proof (update_tree_not_ok m bits sm2 pn Hps) as U. rewrite H in U. destruct U.
  - exists pn. split; assumption.
Qed.

(** A successful [StorageMap::read_chunk] was on a present chunk and returns exactly [chunk_size] bytes. *)
Theorem read_chunk_length m bits (sm : StorageMap) (c : N) (buf : list byte) :
  read_chunk m bits sm c = Some (Ok buf) ->
  has_chunk sm c = true /\ length buf = N.to_nat (chunk_size (chunks sm)).
Proof.
  unfold read_chunk. destruct (has_chunk sm c); cbn [negb]; [|discriminate].
  destruct (umul m bits c (chunk_size (chunks sm))) as [off|]; [|discriminate].
  intros Hr. split; [reflexivity|]. exact (read_storage_length m bits sm off _ buf Hr).
Qed.

Lemma rounds_length (ks ws st : list Z) :
  length st = 8%nat -> length (Sha512.rounds ks ws st) = 8%nat.
Proof.
  revert ws st. induction ks as [|k ks IH]; intros ws st Hs; [destruct ws; exact Hs|].
  destruct ws as [|w ws]; [exact Hs|].
  destruct st as [|a [|b [|c [|d [|e [|f [|g [|h [|x st]]]]]]]]]; try exact Hs.
  cbn [Sha512.rounds]. apply IH. reflexivity.
Qed.

Lemma blocks_length (n : nat) (hv : list Z) (msg : list byte) :
  length hv = 8%nat -> length (Sha512.blocks n hv msg) = 8%nat.
Proof.
  revert hv msg. induction n as [|n IH]; intros hv msg Hh; [exact Hh|].
  cbn [Sha512.blocks]. apply IH. unfold Sha512.compress.
  rewrite length_map, length_combine, rounds_length by exact Hh. rewrite Hh. reflexivity.
Qed.

Lemma be_bytes_length (n : nat) (x : Z) : length (Sha512.be_bytes n x) = n.
Proof.
  revert x. induction n as [|n IH]; intros x; [reflexivity|].
  cbn [Sha512.be_bytes]. rewrite length_app, IH. cbn. lia.
Qed.

Lemma sha512_length (msg : list byte) : length (Sha512.sha512 msg) = 64%nat.
Proof.
  unfold Sha512.sha512.
  generalize (blocks_length (length (Sha512.pad msg) / 128) Sha512.H0 (Sha512.pad msg) eq_refl).
  generalize (Sha512.blocks (length (Sha512.pad msg) / 128) Sha512.H0 (Sha512.pad msg)).
  intros hs Hl.
  assert (G : forall l : list Z, length (flat_map (Sha512.be_bytes 8) l) = (8 * length l)%nat).
  { induction l as [|x l IH]; [reflexivity|]. cbn [flat_map length].
    rewrite length_app, be_bytes_length, IH. lia. }
  rewrite G, Hl. reflexivity.
Qed.

Lemma sibling_parent_witness :
  let il := {| il_index := 2; il_start := 0; il_end := 5 |} in
  il_start il <= il_index il < il_end il /\
  match sibling il with
  | Some j =>
      il_start il <= j < il_end il /\ j <> il_index il /\
      parent {| il_index := j; il_start := il_start il; il_end := il_end il |} = parent il /\
      siblings il = (if j <? il_index il then [Some j; Some (il_index il)]
                     else [Some (il_index il); Some j])
  | None =>
      il_index il = il_end il - 1 /\ siblings il = [Some (il_index il); None]
  end.
Proof.
  cbv zeta. split; [cbn; lia|]. exact (sibling_parent {| il_index := 2; il_start := 0; il_end := 5 |} ltac:(cbn; lia)).
Defined.

Lemma il_down_parent_witness :
  let il := {| il_index := 4; il_start := 0; il_end := 5 |} in
  il_start il <= il_index il < il_end il /\
  exists il', il_down il = Some il' /\
    il_index il' = parent il /\ il_start il' = il_end il /\
    il_end il' - il_start il' = (il_end il - il_start il + 1) / 2 /\
    il_start il' <= il_index il' < il_end il'.
Proof.
  cbv zeta. split; [cbn; lia|]. exact (il_down_parent {| il_index := 4; il_start := 0; il_end := 5 |} ltac:(cbn; lia)).
Defined.

Lemma tree_size_pow2_witness : 1 <= 3 /\ tree_size (2 ^ 3) = (2 ^ (3 + 1) - 1, 3 + 1).
Proof. split; [lia|]. exact (tree_size_pow2 3 ltac:(lia)). Defined.

Lemma chunkmap_new_layout_witness :
  15 <= 64 /\ 20000 + MIN_PIECE_SIZE < 2 ^ 64 /\
  exists cm, chunkmap_new Checked 64 20000 true = Some cm /\
    piece_size cm = 16384 /\ chunk_size cm = 4096 /\ chunks_in_piece cm = 4 /\
    piece_count cm = (20000 + 16383) / 16384 /\
    chunk_count cm = 4 * piece_count cm /\
    cm_bitmap cm = repeat true (N.to_nat (chunk_count cm)).
Proof.
  split; [lia|]. split; [vm_compute; reflexivity|].
  exact (chunkmap_new_layout Checked 64 20000 true ltac:(lia) ltac:(vm_compute; reflexivity)).
Defined.

Lemma piece_of_chunk_witness :
  chunk_size (chunks map_16384) = 4096 /\ piece_size (chunks map_16384) = 16384 /\
  chunks_in_piece (chunks map_16384) = 4 /\ 2 * 4096 + 16384 < 2 ^ 64 /\
  exists pn, piece_from_chunk Checked 64 map_16384 2 = Some pn /\ 4 * pn <= 2 < 4 * pn + 4 /\
    (has_piece Checked 64 map_16384 pn = Some true <->
     forall j, 4 * pn <= j < 4 * pn + 4 -> has_chunk map_16384 j = true).
Proof.
  split; [reflexivity|]. split; [reflexivity|]. split; [reflexivity|].
  split; [vm_compute; reflexivity|].
  exact (piece_of_chunk Checked 64 map_16384 2 eq_refl eq_refl eq_refl ltac:(vm_compute; reflexivity)).
Defined.

Lemma set_get_witness :
  set Sha512 (tree_new Sha512 2) 0 (leaf_hash (proof_of tree2 0)) = Some (Ok tree2_leaf0_only) /\
  mt_leaf_count tree2_leaf0_only = mt_leaf_count (tree_new Sha512 2) /\ has tree2_leaf0_only 0 = true /\
  tree_get Sha512 tree2_leaf0_only 0 = Some (Ok (leaf_hash (proof_of tree2 0))) /\
  forall j, j <> 0 -> tree_get Sha512 tree2_leaf0_only j = tree_get Sha512 (tree_new Sha512 2) j.
Proof.
  assert (H : set Sha512 (tree_new Sha512 2) 0 (leaf_hash (proof_of tree2 0)) = Some (Ok tree2_leaf0_only))
    by (vm_compute; reflexivity).
  split; [exact H|]. exact (set_get Sha512 _ _ _ _ H).
Defined.

Lemma tree_from_leaves_witness :
  (forall x, length (digest (D := Sha512) x) = N.to_nat (output_size (D := Sha512))) /\
  0 < output_size (D := Sha512) /\
  tree_from Sha512 [[x01]; [x02]] = Some tree2 /\
  mt_leaf_count tree2 = N.of_nat (length [[x01]; [x02]]) /\
  forall j, (j < length [[x01]; [x02]])%nat ->
    tree_get Sha512 tree2 (N.of_nat j) = Some (Ok (digest (nth j [[x01]; [x02]] []))).
Proof.
  assert (Hd : forall x, length (digest (D := Sha512) x) = N.to_nat (output_size (D := Sha512)))
    by exact sha512_length.
  assert (Ho : 0 < output_size (D := Sha512)) by (cbn; lia).
  assert (Ht : tree_from Sha512 [[x01]; [x02]] = Some tree2) by (vm_compute; reflexivity).
  split; [exact Hd|]. split; [exact Ho|]. split; [exact Ht|].
  exact (tree_from_leaves Sha512 _ _ Hd Ho Ht).
Defined.

Lemma prove_missing_sibling_witness :
  0 < mt_leaf_count (tree_new Sha512 2) /\
  sibling {| il_index := 0; il_start := 0; il_end := mt_leaf_count (tree_new Sha512 2) |} = Some 1 /\
  has (tree_new Sha512 2) 1 = false /\
  prove Sha512 (tree_new Sha512 2) 0 = Some (Err InvalidLength).
Proof.
  assert (H1 : 0 < mt_leaf_count (tree_new Sha512 2)) by (vm_compute; reflexivity).
  assert (H2 : sibling {| il_index := 0; il_start := 0; il_end := mt_leaf_count (tree_new Sha512 2) |} = Some 1)
    by (vm_compute; reflexivity).
  assert (H3 : has (tree_new Sha512 2) 1 = false) by (vm_compute; reflexivity).
  split; [exact H1|]. split; [exact H2|]. split; [exact H3|].
  exact (prove_missing_sibling Sha512 _ _ _ H1 H2 H3).
Defined.

Lemma verify_ok_sound_witness :
  let pr := proof_of tree3 2 in
  verify Sha512 tree3 pr = Some (Ok tt) /\
  leaf_index pr < mt_leaf_count tree3 /\ (2 <= length (path pr))%nat /\
  get_hash Sha512 tree3 (leaf_index pr) = Some (leaf_hash pr) /\
  exists p, prove Sha512 tree3 (leaf_index pr) = Some (Ok p) /\
    partial pr = negb (built tree3) /\
    firstn (length (path p)) (path pr) = firstn (length (path pr)) (path p) /\
    (built tree3 = true -> path pr = path p).
Proof.
  cbv zeta.
  assert (H : verify Sha512 tree3 (proof_of tree3 2) = Some (Ok tt)) by (vm_compute; reflexivity).
  split; [exact H|]. exact (verify_ok_sound Sha512 _ _ H).
Defined.

Lemma prove_built_shape_witness :
  tree_size (mt_leaf_count tree3) = (N.of_nat (length (mt_bitmap tree3)), mt_height tree3) /\
  length (mt_hashes tree3) = (length (mt_bitmap tree3) * N.to_nat (output_size (D := Sha512)))%nat /\
  built tree3 = true /\ 2 < mt_leaf_count tree3 /\
  exists p, prove Sha512 tree3 2 = Some (Ok p) /\ leaf_index p = 2 /\
    get_hash Sha512 tree3 2 = Some (leaf_hash p) /\
    length (path p) = N.to_nat (mt_height tree3) /\ partial p = false.
Proof.
  assert (H1 : tree_size (mt_leaf_count tree3) = (N.of_nat (length (mt_bitmap tree3)), mt_height tree3))
    by (vm_compute; reflexivity).
  assert (H2 : length (mt_hashes tree3) = (length (mt_bitmap tree3) * N.to_nat (output_size (D := Sha512)))%nat)
    by (vm_compute; reflexivity).
  assert (H3 : built tree3 = true) by (vm_compute; reflexivity).
  assert (H4 : 2 < mt_leaf_count tree3) by (vm_compute; reflexivity).
  split; [exact H1|]. split; [exact H2|]. split; [exact H3|]. split; [exact H4|].
  exact (prove_built_shape Sha512 _ _ H1 H2 H3 H4).
Defined.

Lemma write_read_prefix_witness :
  let r := {| location := "r0"; res_size := 256; contents := repeat x00 256 |} in
  resources storage_256 = ("r0"%string, r) :: [] /\
  0 < N.of_nat (length [x01; x02; x03]) <= res_size r /\ res_size r < 2 ^ 64 /\
  exists st', write Checked 64 storage_256 0 [x01; x02; x03]
                = (Some (Ok (N.of_nat (length [x01; x02; x03]))), st') /\
    read Checked 64 st' 0 (repeat x00 (length [x01; x02; x03]))
      = Some (Ok (N.of_nat (length [x01; x02; x03]), [x01; x02; x03])) /\
    res_sizes st' = res_sizes storage_256 /\ total_size st' = total_size storage_256.
Proof.
  cbv zeta.
  assert (H1 : resources storage_256 =
               ("r0"%string, {| location := "r0"; res_size := 256; contents := repeat x00 256 |}) :: [])
    by (vm_compute; reflexivity).
  split; [exact H1|]. split; [cbn; lia|]. split; [vm_compute; reflexivity|].
  exact (write_read_prefix Checked 64 storage_256 _ _ _ [x01; x02; x03] H1 ltac:(cbn; lia)
           ltac:(vm_compute; reflexivity)).
Defined.

Lemma interior_range_fails_witness :
  res_sizes storage_256 = [256] /\ 0 < 10 /\ 10 + 20 <= 256 /\ 256 < 2 ^ 64 /\
  match view Checked 64 storage_256 10 20 with Some (Ok _) => False | _ => True end /\
  (forall into, N.of_nat (length into) = 20 ->
     match read Checked 64 storage_256 10 into with Some (Ok _) => False | _ => True end) /\
  (forall from, N.of_nat (length from) = 20 ->
     match fst (write Checked 64 storage_256 10 from) with Some (Ok _) => False | _ => True end).
Proof.
  assert (H : res_sizes storage_256 = [256]) by (vm_compute; reflexivity).
  split; [exact H|]. split; [lia|]. split; [lia|]. split; [vm_compute; reflexivity|].
  exact (interior_range_fails Checked 64 storage_256 256 10 20 [] H ltac:(lia) ltac:(lia)
           ltac:(vm_compute; reflexivity)).
Defined.

Lemma storage_new_fresh_witness :
  0 < fs_block (empty_fs 4096) /\
  NoDup (map fst [("a"%string, 4096); ("b"%string, 8192)]) /\
  (forall l, In l (map fst [("a"%string, 4096); ("b"%string, 8192)]) ->
     fs_lookup (fs_files (empty_fs 4096)) l = None) /\
  (forall l s, In (l, s) [("a"%string, 4096); ("b"%string, 8192)] ->
     0 < s /\ s mod fs_block (empty_fs 4096) = 0) /\
  fold_right N.add 0 (map snd [("a"%string, 4096); ("b"%string, 8192)]) < 2 ^ 64 /\
  exists fs', storage_new Checked 64 "s" [("a"%string, 4096); ("b"%string, 8192)] (empty_fs 4096) =
    Some (Ok ({| st_name := "s"; resources := map zero_resource [("a"%string, 4096); ("b"%string, 8192)];
                 total_size := fold_right N.add 0 (map snd [("a"%string, 4096); ("b"%string, 8192)]) |}, fs')).
Proof.
  assert (H0 : 0 < fs_block (empty_fs 4096)) by (vm_compute; reflexivity).
  assert (H1 : NoDup (map fst [("a"%string, 4096); ("b"%string, 8192)])).
  { cbn. constructor; [intros [H|[]]; discriminate H|]. constructor; [intros []|constructor]. }
  assert (H2 : forall l, In l (map fst [("a"%string, 4096); ("b"%string, 8192)]) ->
                 fs_lookup (fs_files (empty_fs 4096)) l = None) by reflexivity.
  assert (H3 : forall l s, In (l, s) [("a"%string, 4096); ("b"%string, 8192)] ->
                 0 < s /\ s mod fs_block (empty_fs 4096) = 0).
  { intros l s [H|[H|[]]]; injection H as <- <-; split; vm_compute; reflexivity. }
  assert (H4 : fold_right N.add 0 (map snd [("a"%string, 4096); ("b"%string, 8192)]) < 2 ^ 64)
    by (vm_compute; reflexivity).
  split; [exact H0|]. split; [exact H1|]. split; [exact H2|]. split; [exact H3|]. split; [exact H4|].
  exact (storage_new_fresh Checked 64 "s" _ (empty_fs 4096) H0 H1 H2 H3 H4).
Defined.

Lemma storage_new_misaligned_witness :
  0 < fs_block (empty_fs 4096) /\ fs_lookup (fs_files (empty_fs 4096)) "a" = None /\
  10 mod fs_block (empty_fs 4096) <> 0 /\ 10 < 2 ^ 64 /\
  storage_new Checked 64 "s" [("a"%string, 10)] (empty_fs 4096)
    = Some (Err (SizeMismatch (allocated_size (fs_block (empty_fs 4096)) 10) 10)) /\
  10 < allocated_size (fs_block (empty_fs 4096)) 10.
Proof.
  assert (H0 : 0 < fs_block (empty_fs 4096)) by (vm_compute; reflexivity).
  assert (H1 : fs_lookup (fs_files (empty_fs 4096)) "a" = None) by reflexivity.
  assert (H2 : 10 mod fs_block (empty_fs 4096) <> 0) by (vm_compute; discriminate).
  assert (H3 : 10 < 2 ^ 64) by (vm_compute; reflexivity).
  split; [exact H0|]. split; [exact H1|]. split; [exact H2|]. split; [exact H3|].
  exact (storage_new_misaligned Checked 64 "s" "a" 10 [] (empty_fs 4096) H0 H1 H2 H3).
Defined.

Lemma write_chunk_ok_witness :
  exists sm', write_chunk Checked 64 map_16384_missing_01 0 chunk_data = Some (Ok tt, sm') /\
  has_chunk map_16384_missing_01 0 = false /\ has_chunk sm' 0 = true /\
  (forall j, j <> 0 -> has_chunk sm' j = has_chunk map_16384_missing_01 j) /\
  length (cm_bitmap (chunks sm')) = length (cm_bitmap (chunks map_16384_missing_01)) /\
  chunk_size (chunks sm') = chunk_size (chunks map_16384_missing_01) /\
  chunk_count (chunks sm') = chunk_count (chunks map_16384_missing_01) /\
  piece_size (chunks sm') = piece_size (chunks map_16384_missing_01) /\
  piece_count (chunks sm') = piece_count (chunks map_16384_missing_01) /\
  chunks_in_piece (chunks sm') = chunks_in_piece (chunks map_16384_missing_01).
Proof.
  destruct (write_chunk Checked 64 map_16384_missing_01 0 chunk_data) as [[[[]|e] sm']|] eqn:Hw;
    [|vm_compute in Hw; discriminate Hw|vm_compute in Hw; discriminate Hw].
  exists sm'. split; [reflexivity|]. exact (write_chunk_ok Checked 64 _ _ _ _ Hw).
Defined.

Lemma update_tree_piece_not_hash_witness :
  piece_size (chunks map_16384) <> 64 /\
  match update_tree Checked 64 map_16384 0 with
  | Some (Ok _, _) => False
  | Some (Err _, sm') => sm' = map_16384
  | None => True
  end /\
  (0 < mt_leaf_count (tree map_16384) ->
   forall off buf, umul Checked 64 0 (piece_size (chunks map_16384)) = Some off ->
   read_storage Checked 64 map_16384 off (piece_size (chunks map_16384)) = Some (Ok buf) ->
   update_tree Checked 64 map_16384 0 = None).
Proof.
  assert (H : piece_size (chunks map_16384) <> 64) by (cbn; discriminate).
  split; [exact H|]. exact (update_tree_piece_not_hash Checked 64 map_16384 0 H).
Defined.

Lemma write_chunk_ok_piece_incomplete_witness :
  piece_size (chunks map_16384_missing_01) <> 64 /\
  exists sm', write_chunk Checked 64 map_16384_missing_01 0 chunk_data = Some (Ok tt, sm') /\
  exists pn, piece_from_chunk Checked 64 sm' 0 = Some pn /\ has_piece Checked 64 sm' pn = Some false.
Proof.
  assert (H : piece_size (chunks map_16384_missing_01) <> 64) by (cbn; discriminate).
  split; [exact H|].
  destruct (write_chunk Checked 64 map_16384_missing_01 0 chunk_data) as [[[[]|e] sm']|] eqn:Hw;
    [|vm_compute in Hw; discriminate Hw|vm_compute in Hw; discriminate Hw].
  exists sm'. split; [reflexivity|]. exact (write_chunk_ok_piece_incomplete Checked 64 _ _ _ _ H Hw).
Defined.

Lemma read_chunk_length_witness :
  exists buf, read_chunk Checked 64 map_16384_full 0 = Some (Ok buf) /\
  has_chunk map_16384_full 0 = true /\ length buf = N.to_nat (chunk_size (chunks map_16384_full)).
Proof.
  destruct (read_chunk Checked 64 map_16384_full 0) as [[buf|e]|] eqn:Hr;
    [|vm_compute in Hr; discriminate Hr|vm_compute in Hr; discriminate Hr].
  exists buf. split; [reflexivity|]. exact (read_chunk_length Checked 64 _ _ _ Hr).
Defined.

Lemma length_flat_map8 {A} (g : A -> list bool) (l : list A) :
  (forall x, length (g x) = 8%nat) -> length (flat_map g l) = (8 * length l)%nat.
Proof.
  intros Hg. induction l as [|x l IH]; [reflexivity|].
  cbn [flat_map]. rewrite length_app, Hg, IH. cbn [length]. lia.
Qed.

(** Saving a storage map and loading it back ([BitVecSerde]: [to_bytes],
    then [from_bytes]) keeps [has_chunk] of every chunk index, and the
    reloaded bitmap has the length rounded up to whole bytes. *)
Theorem chunkmap_reload_has_chunk (sm : StorageMap) :
  (forall c, has_chunk (with_bitmap sm (cm_bitmap (chunkmap_reload (chunks sm)))) c = has_chunk sm c) /\
  length (cm_bitmap (chunkmap_reload (chunks sm)))
  = (8 * (length (cm_bitmap (chunks sm)) / 8
          + (if Nat.eqb (length (cm_bitmap (chunks sm)) mod 8) 0 then 0 else 1)))%nat.
Proof.
  split.
  - intros c. unfold has_chunk, bv_get. cbn [with_bitmap chunks chunkmap_reload cm_bitmap].
    rewrite bv_reload_get.
    destruct (Nat.ltb_spec (N.to_nat c) (length (cm_bitmap (chunks sm)))) as [Hc|Hc]; [reflexivity|].
    rewrite (proj2 (nth_error_None _ _) Hc). destruct (Nat.ltb _ _); reflexivity.
  - cbn [chunkmap_reload cm_bitmap]. unfold bv_from_bytes, bv_to_bytes.
    rewrite length_flat_map8 by reflexivity. rewrite length_map, length_seq. reflexivity.
Qed.

Lemma chunkmap_reload_has_chunk_witness :
  has_chunk (with_bitmap map_16384 (cm_bitmap (chunkmap_reload (chunks map_16384)))) 0
    = has_chunk map_16384 0 /\
  length (cm_bitmap (chunkmap_reload (chunks map_16384))) = 8%nat.
Proof.
  destruct (chunkmap_reload_has_chunk map_16384) as [H1 H2].
  split; [exact (H1 0)|]. rewrite H2. reflexivity.
Defined.
